(** * kube-rollback-controller: the reconciliation pass of [main.go]

    A shallow embedding of [deploymentFailed] and [rollbackController.run]
    and the properties of one pass: classification, planning, dispatch,
    the order of the observable events and the frame of an update. *)

From Stdlib Require Import ZArith Lia.
From stdpp Require Import base option list sorting strings.

Local Open Scope Z_scope.
Local Open Scope string_scope.

(** ** Data model

    The API types come from [github.com/ericchiang/k8s]: structs generated
    from the protobuf definitions, where every scalar and every message
    valued field is a pointer ([*string], [*int64], [*ObjectMeta], ...) and
    repeated fields are slices of allocated objects.  A nil pointer is
    [None].  Only some of the fields that the controller never reads are
    listed; they stand for the rest of the object in the frame property. *)

Record ObjectMeta := {
  Name : option string;
  Namespace : option string;
  ResourceVersion : option string;
}.

Record RollbackConfig := {
  Revision : option Z;
}.

Record DeploymentSpec := {
  Replicas : option Z;
  Paused : option bool;
  ProgressDeadlineSeconds : option Z;
  RollbackTo : option RollbackConfig;
}.

(** [Type], [Status], [Reason] and [Message] of a [DeploymentCondition];
    [Type] is reserved and [Status] is also a field of [Deployment]. *)
Record DeploymentCondition := {
  CType : option string;
  CStatus : option string;
  CReason : option string;
  CMessage : option string;
}.

Record DeploymentStatus := {
  ObservedGeneration : option Z;
  UnavailableReplicas : option Z;
  Conditions : list DeploymentCondition;
}.

Record Deployment := {
  Metadata : option ObjectMeta;
  Spec : option DeploymentSpec;
  Status : option DeploymentStatus;
}.

(** ** Go evaluation: a value, or a nil pointer dereference *)

Inductive go (A : Type) : Type :=
| Done (a : A)
| Panic.
Arguments Done {A} a.
Arguments Panic {A}.

(** ** [deploymentFailed] *)

(** The closure [eq] of [deploymentFailed]: [s != nil && *s == to]. *)
Definition eq_str (s : option string) (to : string) : bool :=
  match s with
  | Some v => String.eqb v to
  | None => false
  end.

(** The test of the [if] in the loop body. *)
Definition deadlineExceeded (c : DeploymentCondition) : bool :=
  eq_str (CType c) "Progressing" &&
  eq_str (CStatus c) "False" &&
  eq_str (CReason c) "ProgressDeadlineExceeded".

(** [for _, c := range conds { if ... { return true } }; return false] *)
Fixpoint rangeConditions (conds : list DeploymentCondition) : bool :=
  match conds with
  | [] => false
  | c :: rest => if deadlineExceeded c then true else rangeConditions rest
  end.

(** [d.Status.Conditions] dereferences [d.Status]. *)
Definition deploymentFailed (d : Deployment) : go bool :=
  match Status d with
  | None => Panic
  | Some st => Done (rangeConditions (Conditions st))
  end.

(** ** The planning loop of [run] (lines 53-66)

    [deployments.Items] is a slice of pointers; the objects it points to
    are the store of the pass and a pointer is an index into it.
    [toUpdate] holds pointers into the same store.  Each listed object is
    decoded with a spec, a status and a metadata object of its own, so a
    write through [d.Spec] changes the object at [d] only.  [failed] is a
    Go [int]; it is bounded by the length of the slice and never wraps. *)

Fixpoint planLoop (items : list Deployment) (p : nat)
    (toUpdate : list nat) (failed : Z) : go (list nat * Z) :=
  match items with
  | [] => Done (toUpdate, failed)
  | d :: rest =>
      match deploymentFailed d with
      | Panic => Panic
      | Done false => planLoop rest (S p) toUpdate failed
      | Done true =>
          let failed := failed + 1 in
          match Spec d with
          | None => Panic
          | Some sp =>
              match RollbackTo sp with
              | None => planLoop rest (S p) (toUpdate ++ [p]) failed
              | Some _ => planLoop rest (S p) toUpdate failed
              end
          end
      end
  end.

Definition plan (items : list Deployment) : go (list nat * Z) :=
  planLoop items 0%nat [] 0.

(** ** The Directory and the events of a pass *)

(** The two calls [run] makes on the client.  Each takes the state of the
    outside world and returns the next one: the items or an error for
    [ListDeployments], an error or nil for [UpdateDeployment]. *)
Class Directory (W : Type) := {
  ListDeployments : string -> W -> W * (list Deployment + string);
  UpdateDeployment : Deployment -> W -> W * option string;
}.

(** What a pass does that can be observed, in the order it happens: the
    calls on the client (with the answer of an update) and the two log
    lines, ["deployments=%d, failed=%d, rolled back=%d"] and
    ["rolled back deployment: %s"], by their arguments. *)
Inductive Event :=
| EList (ns : string)
| ELogSummary (deployments failed rolledBack : Z)
| EUpdate (p : nat) (d : Deployment) (resp : option string)
| ELogRolledBack (name : string).

(** How [run] ends: [return nil], [return fmt.Errorf(...)], or a panic. *)
Inductive Outcome :=
| ReturnNil
| ReturnErr (msg : string)
| Panicked.

Record Pass (W : Type) := mkPass {
  world : W;
  store : list Deployment;
  trace : list Event;
  outcome : Outcome;
}.
Arguments mkPass {W} _ _ _ _.
Arguments world {W} _.
Arguments store {W} _.
Arguments trace {W} _.
Arguments outcome {W} _.

(** [d.Spec.RollbackTo = &v1beta1.RollbackConfig{Revision: &lastRevision}]
    with [lastRevision = 0], on the [DeploymentSpec] that [d.Spec] points
    to. *)
Definition requestRollback (sp : DeploymentSpec) : DeploymentSpec :=
  {| Replicas := Replicas sp;
     Paused := Paused sp;
     ProgressDeadlineSeconds := ProgressDeadlineSeconds sp;
     RollbackTo := Some {| Revision := Some 0 |} |}.

Definition withSpec (d : Deployment) (sp : DeploymentSpec) : Deployment :=
  {| Metadata := Metadata d; Spec := Some sp; Status := Status d |}.

Definition then_ {W} (evs : list Event) (r : Pass W) : Pass W :=
  mkPass (world r) (store r) (evs ++ trace r) (outcome r).

Section Run.
Context {W : Type} `{Directory W}.

(** The dispatch loop of [run] (lines 71-80).  Of the client the loop
    takes the answer of [UpdateDeployment] only; what the client does
    with the object it is handed before it answers is outside this
    repository and outside the model. *)
Fixpoint dispatch (toUpdate : list nat) (w : W) (st : list Deployment)
    : Pass W :=
  match toUpdate with
  | [] => mkPass w st [] ReturnNil
  | p :: rest =>
      match st !! p with
      | None => mkPass w st [] Panicked
      | Some d =>
          match Spec d with
          | None => mkPass w st [] Panicked
          | Some sp =>
              let d' := withSpec d (requestRollback sp) in
              let st' := <[p := d']> st in
              let '(w', resp) := UpdateDeployment d' w in
              match resp with
              | Some err =>
                  mkPass w' st' [EUpdate p d' resp]
                    (ReturnErr ("update deployment: " ++ err))
              | None =>
                  match Metadata d' with
                  | None => mkPass w' st' [EUpdate p d' None] Panicked
                  | Some md =>
                      match Name md with
                      | None => mkPass w' st' [EUpdate p d' None] Panicked
                      | Some n =>
                          then_ [EUpdate p d' None; ELogRolledBack n]
                            (dispatch rest w' st')
                      end
                  end
              end
          end
      end
  end.

(** [rollbackController.run]; [ns] is [c.client.Namespace]. *)
Definition run (ns : string) (w : W) : Pass W :=
  let '(w1, r) := ListDeployments ns w in
  match r with
  | inr err => mkPass w1 [] [EList ns] (ReturnErr ("list deployments: " ++ err))
  | inl items =>
      match plan items with
      | Panic => mkPass w1 items [EList ns] Panicked
      | Done (toUpdate, failed) =>
          then_ [EList ns;
                 ELogSummary (Z.of_nat (length items)) failed
                   (failed - Z.of_nat (length toUpdate))]
            (dispatch toUpdate w1 items)
      end
  end.
End Run.

(** ** Vocabulary of the properties *)

(** A condition that signals a stalled rollout, in the words of the
    specification. *)
Definition stalled (c : DeploymentCondition) : Prop :=
  CType c = Some "Progressing" ∧
  CStatus c = Some "False" ∧
  CReason c = Some "ProgressDeadlineExceeded".

Definition rollbackAbsent (d : Deployment) : Prop :=
  ∃ sp, Spec d = Some sp ∧ RollbackTo sp = None.

Definition rollbackPresent (d : Deployment) : Prop :=
  ∃ sp rc, Spec d = Some sp ∧ RollbackTo sp = Some rc.

(** The objects a listing decodes to when the server sent both the spec
    and the status of each. *)
Definition decoded (d : Deployment) : Prop :=
  is_Some (Status d) ∧ is_Some (Spec d).

Definition isFailedb (d : Deployment) : bool :=
  match deploymentFailed d with
  | Done b => b
  | Panic => false
  end.

Definition rollbackAbsentb (d : Deployment) : bool :=
  match Spec d with
  | Some sp => match RollbackTo sp with None => true | Some _ => false end
  | None => false
  end.

Definition needsRollbackb (d : Deployment) : bool :=
  isFailedb d && rollbackAbsentb d.

(** Pointers (from [p] on) of the failed records without a rollback
    request, in listing order. *)
Fixpoint needsFrom (p : nat) (items : list Deployment) : list nat :=
  match items with
  | [] => []
  | d :: rest =>
      if needsRollbackb d then p :: needsFrom (S p) rest
      else needsFrom (S p) rest
  end.

Definition failedCount (items : list Deployment) : Z :=
  Z.of_nat (length (List.filter isFailedb items)).

(** The identity of an object across listings: namespace and name. *)
Definition objKey (d : Deployment) : option (option string * option string) :=
  match Metadata d with
  | Some md => Some (Namespace md, Name md)
  | None => None
  end.

(** The updates of a trace, and the pointers they were issued for. *)
Definition isUpdate (e : Event) : bool :=
  match e with
  | EUpdate _ _ _ => true
  | _ => false
  end.

Definition updates (t : list Event) : list Event := List.filter isUpdate t.

Fixpoint updatePtrs (t : list Event) : list nat :=
  match t with
  | [] => []
  | EUpdate p _ _ :: rest => p :: updatePtrs rest
  | _ :: rest => updatePtrs rest
  end.

(** The updates of a trace issued for the object at pointer [p]. *)
Definition isUpdateFor (p : nat) (e : Event) : bool :=
  match e with
  | EUpdate q _ _ => Nat.eqb q p
  | _ => false
  end.

Definition updatesFor (p : nat) (t : list Event) : list Event :=
  List.filter (isUpdateFor p) t.

(** The events of the dispatch loop: an update or its log line. *)
Definition isDispatchEvent (e : Event) : bool :=
  match e with
  | EUpdate _ _ _ | ELogRolledBack _ => true
  | _ => false
  end.

Definition isSummary (e : Event) : bool :=
  match e with
  | ELogSummary _ _ _ => true
  | _ => false
  end.

(** The order of a pass as the specification lists it: the summary is
    emitted after every dispatch. *)
Definition summaryAfterDispatch (t : list Event) : Prop :=
  ∀ i j e1 e2,
    t !! i = Some e1 → isUpdate e1 = true →
    t !! j = Some e2 → isSummary e2 = true →
    (i < j)%nat.

(** ** An in-memory Directory

    Seeded with literal records.  [ListDeployments] answers [listError] or
    the records; [UpdateDeployment] takes its answer from a script (nil
    when the script is used up) and, on success, replaces the whole record
    of the same namespace and name. *)
Record Fake := mkFake {
  records : list Deployment;
  listError : option string;
  updateScript : list (option string);
}.

Definition replaceRecord (d : Deployment) (recs : list Deployment)
    : list Deployment :=
  map (λ r, if decide (objKey r = objKey d) then d else r) recs.

Definition fakeList (ns : string) (w : Fake)
    : Fake * (list Deployment + string) :=
  match listError w with
  | Some err => (w, inr err)
  | None => (w, inl (records w))
  end.

Definition fakeUpdate (d : Deployment) (w : Fake) : Fake * option string :=
  match updateScript w with
  | Some err :: script => (mkFake (records w) (listError w) script, Some err)
  | None :: script =>
      (mkFake (replaceRecord d (records w)) (listError w) script, None)
  | [] => (mkFake (replaceRecord d (records w)) (listError w) [], None)
  end.

#[export] Instance fakeDirectory : Directory Fake := {
  ListDeployments := fakeList;
  UpdateDeployment := fakeUpdate;
}.

(** ** Literal records for the examples *)

Definition meta (n : string) : option ObjectMeta :=
  Some {| Name := Some n; Namespace := Some "default";
          ResourceVersion := Some "1" |}.

Definition specWith (r : option RollbackConfig) : option DeploymentSpec :=
  Some {| Replicas := Some 3; Paused := None;
          ProgressDeadlineSeconds := Some 600; RollbackTo := r |}.

Definition condStalled : DeploymentCondition :=
  {| CType := Some "Progressing"; CStatus := Some "False";
     CReason := Some "ProgressDeadlineExceeded";
     CMessage := Some "timed out" |}.

Definition condAvailable : DeploymentCondition :=
  {| CType := Some "Available"; CStatus := Some "True";
     CReason := Some "MinimumReplicasAvailable"; CMessage := None |}.

Definition statusWith (cs : list DeploymentCondition)
    : option DeploymentStatus :=
  Some {| ObservedGeneration := Some 7; UnavailableReplicas := None;
          Conditions := cs |}.

Definition healthy (n : string) : Deployment :=
  {| Metadata := meta n; Spec := specWith None;
     Status := statusWith [condAvailable] |}.

Definition failing (n : string) : Deployment :=
  {| Metadata := meta n; Spec := specWith None;
     Status := statusWith [condAvailable; condStalled] |}.

Definition handled (n : string) : Deployment :=
  {| Metadata := meta n; Spec := specWith (Some {| Revision := Some 4 |});
     Status := statusWith [condStalled] |}.

(** The scenario of the specification: [A] healthy, [B] failed without a
    rollback request, [C] failed with one. *)
Definition recA : Deployment := healthy "a".
Definition recB : Deployment := failing "b".
Definition recC : Deployment := handled "c".

Definition scenario : Fake := mkFake [recA; recB; recC] None [].

(** Three records that need a rollback; the second update is rejected. *)
Definition threeFailing : Fake :=
  mkFake [failing "x"; failing "y"; failing "z"] None
    [None; Some "conflict"].

(** A failed record whose metadata carries no name. *)
Definition nameless : Deployment :=
  {| Metadata := Some {| Name := None; Namespace := Some "default";
                         ResourceVersion := None |};
     Spec := specWith None;
     Status := statusWith [condStalled] |}.

(** A Directory whose listing fails. *)
Definition unreachable : Fake := mkFake [recB] (Some "timeout") [].

(** A record decoded without a status. *)
Definition statusless : Deployment :=
  {| Metadata := meta "s"; Spec := specWith None; Status := None |}.

(** A record as the dispatch loop sends it. *)
Definition requested (d : Deployment) : Deployment :=
  match Spec d with
  | Some sp => withSpec d (requestRollback sp)
  | None => d
  end.

(** ** Further vocabulary *)

(** The three fields of a condition that [deploymentFailed] reads. *)
Definition condKey (c : DeploymentCondition)
    : option string * option string * option string :=
  (CType c, CStatus c, CReason c).

Definition rollbackPresentb (d : Deployment) : bool :=
  match Spec d with
  | Some sp => match RollbackTo sp with Some _ => true | None => false end
  | None => false
  end.

(** Number of failed records that carry a rollback request. *)
Definition handledCount (items : list Deployment) : Z :=
  Z.of_nat (length (List.filter (λ d, isFailedb d && rollbackPresentb d) items)).

(** A record the planning loop can read: [d.Status] is not nil, and
    [d.Spec] is not nil when the record is failed. *)
Definition readable (d : Deployment) : Prop :=
  is_Some (Status d) ∧ (deploymentFailed d = Done true → is_Some (Spec d)).

(** A record whose name the dispatch loop can log, if it gets there. *)
Definition nameOf (d : Deployment) : option string :=
  match Metadata d with
  | Some md => Name md
  | None => None
  end.

Definition loggable (d : Deployment) : Prop :=
  deploymentFailed d = Done true → rollbackAbsent d → is_Some (nameOf d).

(** The two events of an iteration of the dispatch loop that ran to its
    end, for the object at [p] of the store [st]. *)
Definition rolledBackEvents (st : list Deployment) (p : nat) : list Event :=
  match st !! p with
  | Some d =>
      match Spec d, nameOf d with
      | Some sp, Some n =>
          [EUpdate p (withSpec d (requestRollback sp)) None; ELogRolledBack n]
      | _, _ => []
      end
  | None => []
  end.

Definition isRolledBackLog (e : Event) : bool :=
  match e with
  | ELogRolledBack _ => true
  | _ => false
  end.

Section Replay.
Context {W : Type} `{Directory W}.

(** The world after the update calls of a trace, made in order from [w]. *)
Fixpoint replay (t : list Event) (w : W) : W :=
  match t with
  | [] => w
  | EUpdate _ d _ :: rest => replay rest (UpdateDeployment d w).1
  | _ :: rest => replay rest w
  end.

(** Each update of the trace carries the answer the Directory gives to
    it in the world the calls before it have left. *)
Fixpoint answered (t : list Event) (w : W) : Prop :=
  match t with
  | [] => True
  | EUpdate _ d r :: rest =>
      (UpdateDeployment d w).2 = r ∧ answered rest (UpdateDeployment d w).1
  | _ :: rest => answered rest w
  end.
End Replay.

(** ** [main]: the loop that runs the controller

    What the process does that can be observed: the events of each pass,
    the line [l.Printf("running rollbackController: %v", err)], the call
    [time.Sleep(2 * time.Second)] by its argument in nanoseconds, and
    [l.Fatalf], which logs and exits. *)
Inductive MainEvent :=
| EPass (e : Event)
| ELogRunError (msg : string)
| ESleep (nanoseconds : Z)
| EFatal (msg : string).

(** [crashed] is set when a pass panicked: nothing recovers it and the
    process ends there. *)
Record Process (W : Type) := mkProcess {
  client : W;
  events : list MainEvent;
  crashed : bool;
}.
Arguments mkProcess {W} _ _ _.
Arguments client {W} _.
Arguments events {W} _.
Arguments crashed {W} _.

Definition after {W} (evs : list MainEvent) (r : Process W) : Process W :=
  mkProcess (client r) (evs ++ events r) (crashed r).

Definition second : Z := 1000000000.




Definition isPassEvent (e : MainEvent) : bool :=
  match e with
  | EPass _ => true
  | _ => false
  end.

Section Main.
Context {W : Type} `{Directory W}.

(** The first [n] iterations of [for { ... }] in [main] (lines 140-146);
    [ns] is the namespace of the client. *)
Fixpoint mainLoop (n : nat) (ns : string) (w : W) : Process W :=
  match n with
  | O => mkProcess w [] false
  | S n' =>
      let r := run ns w in
      match outcome r with
      | Panicked => mkProcess (world r) (EPass <$> trace r) true
      | ReturnNil =>
          after ((EPass <$> trace r) ++ [ESleep (2 * second)])
            (mainLoop n' ns (world r))
      | ReturnErr msg =>
          after ((EPass <$> trace r) ++
                 [ELogRunError ("running rollbackController: " ++ msg);
                  ESleep (2 * second)])
            (mainLoop n' ns (world r))
      end
  end.

(** The outcomes of the passes of the first [n] iterations, for the
    statements about them. *)
Fixpoint passOutcomes (n : nat) (ns : string) (w : W) : list Outcome :=
  match n with
  | O => []
  | S n' =>
      let r := run ns w in
      match outcome r with
      | Panicked => [Panicked]
      | o => o :: passOutcomes n' ns (world r)
      end
  end.

(** The worlds a loop that does not crash can start a pass in. *)
Fixpoint passWorlds (n : nat) (ns : string) (w : W) : list W :=
  match n with
  | O => []
  | S n' => w :: passWorlds n' ns (world (run ns w))
  end.

Definition clientInCluster : string := "in-cluster".
Definition clientKubectl : string := "kubectl".

(** The [switch clientType] of [main] (lines 125-136).  [inCluster] and
    [kubectl] are what [k8s.NewInClusterClient()] and [kubectlClient()]
    return when called: a client with its namespace, or an error.  The
    result is the client, or the line that [l.Fatalf] logs. *)
Definition selectClient (clientType : string)
    (inCluster kubectl : string * W + string) : string * W + string :=
  if String.eqb clientType clientInCluster then
    match inCluster with
    | inl c => inl c
    | inr err => inr ("initialize in-cluster client: " ++ err)
    end
  else if String.eqb clientType clientKubectl then
    match kubectl with
    | inl c => inl c
    | inr err => inr ("initialize client from kubectl: " ++ err)
    end
  else inr ("unrecognized client type: " ++ clientType).

(** [main] after [flag.Parse()], up to [n] iterations of its loop. *)
Definition main (n : nat) (clientType : string)
    (inCluster kubectl : string * W + string) : list MainEvent :=
  match selectClient clientType inCluster kubectl with
  | inr msg => [EFatal msg]
  | inl (ns, w) => events (mainLoop n ns w)
  end.
End Main.

(** ** [kubectlClient] (lines 86-105)

    [kubectl config view -o json] has run: [runErr] is what [cmd.Run()]
    returned, [stdout] and [stderr] the bytes the two buffers hold. *)
Record CmdRun := mkCmdRun {
  runErr : option string;
  stdout : string;
  stderr : string;
}.

Section Kubectl.
Context {W Config : Type}.
(** [strings.TrimSpace], [json.Unmarshal] into a new [k8s.Config], and
    [k8s.NewClient]: library functions the controller calls. *)
Variable TrimSpace : string → string.
Variable Unmarshal : string → Config + string.
Variable NewClient : Config → W + string.

Definition kubectlClient (c : CmdRun) : W + string :=
  match runErr c with
  | Some err =>
      let err :=
        if Nat.eqb (String.length (stderr c)) 0 then err
        else TrimSpace (stderr c) in
      inr ("kubectl config failed: " ++ err)
  | None =>
      match Unmarshal (stdout c) with
      | inr err => inr ("invalid output for kubectl config view: " ++ err)
      | inl config => NewClient config
      end
  end.
End Kubectl.

(** A Directory that answers every listing with the same records and
    accepts every update without recording it. *)
#[export] Instance frozenDirectory : Directory (list Deployment) := {
  ListDeployments := λ _ w, (w, inl w);
  UpdateDeployment := λ _ w, (w, None);
}.

(** A Directory with nothing to roll back. *)
Definition steady : Fake := mkFake [recA; recC] None [].

(** One iteration of the dispatch loop, by cases on what it reads. *)
Ltac dispatch_step p st w :=
  simpl;
  let d := fresh "d" in
  let sp := fresh "sp" in
  let w' := fresh "w'" in
  let err := fresh "err" in
  let md := fresh "md" in
  let n := fresh "n" in
  destruct (st !! p) as [d|] eqn:Hlookup; simpl;
  [destruct (Spec d) as [sp|] eqn:Hspec; simpl;
   [destruct (UpdateDeployment (withSpec d (requestRollback sp)) w)
      as [w' [err|]] eqn:Hupd; simpl;
    [|destruct (Metadata d) as [md|] eqn:Hmeta; simpl;
      [destruct (Name md) as [n|] eqn:Hname; simpl|]]|]|].

(** ** The failure classifier *)

Lemma eq_str_true s to : eq_str s to = true ↔ s = Some to.
Proof.
  destruct s as [v|]; simpl.
  - rewrite String.eqb_eq. split; congruence.
  - split; discriminate.
Qed.

Lemma deadlineExceeded_stalled c : deadlineExceeded c = true ↔ stalled c.
Proof.
  unfold deadlineExceeded, stalled.
  rewrite !andb_true_iff, !eq_str_true. tauto.
Qed.

Lemma rangeConditions_true conds :
  rangeConditions conds = true ↔ ∃ c, c ∈ conds ∧ stalled c.
Proof.
  induction conds as [|c rest IH]; simpl.
  - split; [discriminate|]. intros (c & Hc & _). inversion Hc.
  - destruct (deadlineExceeded c) eqn:E.
    + split; [|done]. intros _. exists c. split; [left|].
      by apply deadlineExceeded_stalled.
    + rewrite IH. split.
      * intros (c' & Hin & Hs). exists c'. split; [by right|done].
      * intros (c' & Hin & Hs). apply elem_of_cons in Hin as [->|Hin].
        -- apply deadlineExceeded_stalled in Hs. congruence.
        -- eauto.
Qed.

(** C1. For a record with status [st], [deploymentFailed] returns [true]
    exactly when some condition of [st] has type "Progressing", status
    "False" and reason "ProgressDeadlineExceeded", all three present;
    with no such condition it returns [false]. *)
Theorem deploymentFailed_iff (d : Deployment) (st : DeploymentStatus) :
  Status d = Some st →
  (deploymentFailed d = Done true ↔
     ∃ c, c ∈ Conditions st ∧
          CType c = Some "Progressing" ∧
          CStatus c = Some "False" ∧
          CReason c = Some "ProgressDeadlineExceeded") ∧
  ((¬ ∃ c, c ∈ Conditions st ∧
           CType c = Some "Progressing" ∧
           CStatus c = Some "False" ∧
           CReason c = Some "ProgressDeadlineExceeded") →
   deploymentFailed d = Done false).
Proof.
  intros Hst. unfold deploymentFailed. rewrite Hst.
  pose proof (rangeConditions_true (Conditions st)) as Hr.
  unfold stalled in Hr. split.
  - rewrite <- Hr. split; [by intros [= ->]|by intros ->].
  - intros Hno. destruct (rangeConditions (Conditions st)); [|done].
    exfalso. apply Hno, Hr. done.
Qed.

Lemma deploymentFailed_iff_witness :
  deploymentFailed (failing "b") = Done true ∧
  deploymentFailed (healthy "a") = Done false.
Proof.
  split.
  - eapply (deploymentFailed_iff (failing "b")); [reflexivity|].
    exists condStalled. split; [|done]. simpl. right. left.
  - eapply (deploymentFailed_iff (healthy "a")); [reflexivity|].
    intros (c & Hin & Ht & _). simpl in Hin.
    apply list_elem_of_singleton in Hin. subst c. discriminate.
Defined.

(** ** The planner *)

Lemma isFailedb_true d : isFailedb d = true ↔ deploymentFailed d = Done true.
Proof.
  unfold isFailedb. destruct (deploymentFailed d) as [[]|]; split; congruence.
Qed.

Lemma rollbackAbsentb_true d : rollbackAbsentb d = true ↔ rollbackAbsent d.
Proof.
  unfold rollbackAbsentb, rollbackAbsent. split.
  - destruct (Spec d) as [sp|]; [|discriminate].
    destruct (RollbackTo sp) eqn:E; [discriminate|]. eauto.
  - intros (sp & -> & ->). reflexivity.
Qed.

Lemma needsRollbackb_true d :
  needsRollbackb d = true ↔ deploymentFailed d = Done true ∧ rollbackAbsent d.
Proof.
  unfold needsRollbackb.
  by rewrite andb_true_iff, isFailedb_true, rollbackAbsentb_true.
Qed.

Lemma absent_not_present d : rollbackAbsent d → rollbackPresent d → False.
Proof. intros (sp & Hs & Hr) (sp' & rc & Hs' & Hr'). congruence. Qed.

Lemma failedCount_cons d items :
  failedCount (d :: items) =
  (if isFailedb d then 1 else 0) + failedCount items.
Proof.
  unfold failedCount. simpl. destruct (isFailedb d); simpl; lia.
Qed.

Lemma planLoop_needsFrom items :
  Forall decoded items →
  ∀ p toUpdate failed,
    planLoop items p toUpdate failed =
    Done ((toUpdate ++ needsFrom p items)%list, failed + failedCount items).
Proof.
  induction 1 as [|d rest [[st Hst] [sp Hsp]] _ IH]; intros p tu f.
  - simpl. rewrite app_nil_r. unfold failedCount. simpl. f_equal. f_equal. lia.
  - rewrite failedCount_cons. simpl.
    unfold needsRollbackb, isFailedb, rollbackAbsentb, deploymentFailed.
    rewrite Hst, Hsp.
    destruct (rangeConditions (Conditions st)); simpl.
    + destruct (RollbackTo sp); rewrite IH.
      * do 2 f_equal. lia.
      * rewrite <- app_assoc. simpl. do 2 f_equal. lia.
    + rewrite IH. do 2 f_equal.
Qed.

Lemma needsFrom_elem items :
  ∀ p q, q ∈ needsFrom p items ↔
         ∃ i d, q = (p + i)%nat ∧ items !! i = Some d ∧ needsRollbackb d = true.
Proof.
  induction items as [|d rest IH]; intros p q; simpl.
  - rewrite elem_of_nil. split; [done|]. by intros (i & d & _ & ? & _).
  - assert (q ∈ needsFrom (S p) rest ↔
            ∃ i d', q = (p + S i)%nat ∧ rest !! i = Some d' ∧
                    needsRollbackb d' = true) as IH'.
    { rewrite IH. split; intros (i & d' & -> & ?); exists i, d';
        (split; [lia|done]). }
    destruct (needsRollbackb d) eqn:E.
    + rewrite elem_of_cons, IH'. split.
      * intros [->|(i & d' & -> & ? & ?)].
        -- exists 0%nat, d. split; [lia|done].
        -- exists (S i), d'. done.
      * intros ([|i] & d' & -> & Hl & Hn).
        -- left. lia.
        -- right. exists i, d'. done.
    + rewrite IH'. split.
      * intros (i & d' & -> & ? & ?). exists (S i), d'. done.
      * intros ([|i] & d' & -> & Hl & Hn).
        -- simpl in Hl. congruence.
        -- exists i, d'. done.
Qed.

Lemma needsFrom_sorted items : ∀ p, StronglySorted lt (needsFrom p items).
Proof.
  induction items as [|d rest IH]; intros p; simpl; [constructor|].
  destruct (needsRollbackb d); [|apply IH].
  constructor; [apply IH|].
  apply Forall_forall. intros q Hq.
  apply needsFrom_elem in Hq as (i & _ & -> & _). lia.
Qed.

Lemma needsFrom_zero items p :
  p ∈ needsFrom 0 items ↔
  ∃ d, items !! p = Some d ∧ deploymentFailed d = Done true ∧ rollbackAbsent d.
Proof.
  rewrite needsFrom_elem. split.
  - intros (i & d & -> & Hl & Hn). exists d.
    by apply needsRollbackb_true in Hn.
  - intros (d & Hl & Hn). exists p, d. by rewrite needsRollbackb_true.
Qed.

Lemma plan_decoded items :
  Forall decoded items →
  plan items = Done (needsFrom 0 items, failedCount items).
Proof. intros Hd. unfold plan. by rewrite planLoop_needsFrom. Qed.

(** Whatever the records, a plan that is produced is the one above. *)
Lemma planLoop_done items :
  ∀ p toUpdate failed tu f,
    planLoop items p toUpdate failed = Done (tu, f) →
    tu = (toUpdate ++ needsFrom p items)%list ∧ f = failed + failedCount items.
Proof.
  induction items as [|d rest IH]; intros p tu0 f0 tu f; simpl.
  - intros [= <- <-]. rewrite app_nil_r. unfold failedCount. simpl.
    split; [done|lia].
  - rewrite failedCount_cons. unfold needsRollbackb, isFailedb, rollbackAbsentb.
    destruct (deploymentFailed d) as [[]|]; [| |done].
    + destruct (Spec d) as [sp|]; [|done].
      destruct (RollbackTo sp); intros Hp; apply IH in Hp as [-> ->]; simpl.
      * split; [done|lia].
      * rewrite <- app_assoc. split; [done|lia].
    + intros Hp. apply IH in Hp as [-> ->]. simpl. split; [done|lia].
Qed.

Lemma plan_done items tu f :
  plan items = Done (tu, f) → tu = needsFrom 0 items ∧ f = failedCount items.
Proof. intros Hp. by apply planLoop_done in Hp as [-> ->]. Qed.

(** C2. On a listing whose records carry a status and a spec, the planning
    loop returns [toUpdate] and [failed] such that: a pointer is in
    [toUpdate] exactly when its record is failed and has no rollback
    request (so a record that is not failed, or is failed with a request,
    is left out); [toUpdate] is strictly increasing, that is in listing
    order without repetition; and [failed] counts every failed record,
    with or without a request. *)
Theorem plan_partition (items : list Deployment) :
  Forall decoded items →
  ∃ toUpdate failed,
    plan items = Done (toUpdate, failed) ∧
    (∀ p, p ∈ toUpdate ↔
          ∃ d, items !! p = Some d ∧ deploymentFailed d = Done true ∧
               rollbackAbsent d) ∧
    (∀ p d, items !! p = Some d → deploymentFailed d = Done false →
            p ∉ toUpdate) ∧
    (∀ p d, items !! p = Some d → deploymentFailed d = Done true →
            rollbackPresent d → p ∉ toUpdate) ∧
    StronglySorted lt toUpdate ∧
    failed = Z.of_nat (length (List.filter isFailedb items)).
Proof.
  intros Hd. exists (needsFrom 0 items), (failedCount items).
  split; [by apply plan_decoded|].
  split; [apply needsFrom_zero|].
  split; [|split; [|split; [apply needsFrom_sorted|done]]].
  - intros p d Hl Hf Hin. apply needsFrom_zero in Hin as (d' & Hl' & Hf' & _).
    congruence.
  - intros p d Hl Hf Hp Hin. apply needsFrom_zero in Hin as (d' & Hl' & _ & Ha).
    assert (d' = d) as -> by congruence. eauto using absent_not_present.
Qed.

Lemma plan_partition_witness :
  ∃ toUpdate failed,
    plan [recA; recB; recC] = Done (toUpdate, failed) ∧
    toUpdate = [1%nat] ∧ failed = 2.
Proof.
  destruct (plan_partition [recA; recB; recC]) as (tu & f & Hp & _).
  - repeat constructor; eauto.
  - exists tu, f. split; [exact Hp|].
    vm_compute in Hp. by injection Hp as <- <-.
Defined.

(** ** The dispatch loop *)

Section Dispatch.
Context {W : Type} `{Directory W}.

(** Dispatch emits updates and their log lines, nothing else. *)
Lemma dispatch_events toUpdate :
  ∀ w st, Forall (λ e, isDispatchEvent e = true)
            (trace (dispatch toUpdate w st)).
Proof.
  induction toUpdate as [|p rest IH]; intros w st; [constructor|].
  dispatch_step p st w; repeat constructor. apply IH.
Qed.

(** Updates go out in the order of [toUpdate], up to where the loop
    stops. *)
Lemma dispatch_prefix toUpdate :
  ∀ w st, updatePtrs (trace (dispatch toUpdate w st)) `prefix_of` toUpdate.
Proof.
  induction toUpdate as [|p rest IH]; intros w st; [done|].
  dispatch_step p st w;
    try apply prefix_nil; try (apply prefix_cons, prefix_nil).
  apply prefix_cons, IH.
Qed.

(** An object that is not in [toUpdate] is neither written to nor sent. *)
Lemma dispatch_untouched toUpdate :
  ∀ w st p, p ∉ toUpdate →
    store (dispatch toUpdate w st) !! p = st !! p ∧
    updatesFor p (trace (dispatch toUpdate w st)) = [].
Proof.
  induction toUpdate as [|q rest IH]; intros w st p Hp; [done|].
  apply not_elem_of_cons in Hp as [Hne Hp].
  assert (Nat.eqb q p = false) as Hqp by (apply Nat.eqb_neq; congruence).
  dispatch_step q st w; unfold updatesFor; simpl; rewrite ?Hqp;
    rewrite ?list_lookup_insert_ne by congruence; try done.
  destruct (IH w' (<[q:=withSpec d (requestRollback sp)]> st) p Hp)
    as [Hs Hu].
  rewrite Hs, list_lookup_insert_ne by congruence. done.
Qed.

(** Every update sends the object of the store with only its rollback
    request replaced. *)
Lemma dispatch_update_inv toUpdate :
  NoDup toUpdate →
  ∀ w st p d' r,
    EUpdate p d' r ∈ trace (dispatch toUpdate w st) →
    p ∈ toUpdate ∧
    ∃ d sp, st !! p = Some d ∧ Spec d = Some sp ∧
            d' = withSpec d (requestRollback sp).
Proof.
  induction 1 as [|q rest Hq Hnd IH]; intros w st p d' r; simpl.
  { by rewrite elem_of_nil. }
  dispatch_step q st w; rewrite ?elem_of_nil; try done;
    rewrite ?elem_of_cons, ?elem_of_nil.
  - intros [[= -> -> ->]|[]]. split; [by left|eauto].
  - intros [[= -> -> ->]|[?|Hin]]; [split; [by left|eauto]|done|].
    apply IH in Hin as (Hin & d0 & sp0 & Hl0 & Hs0 & ->).
    split; [by right|].
    rewrite list_lookup_insert_ne in Hl0 by (intros ->; done).
    eauto.
  - intros [[= -> -> ->]|[]]. split; [by left|eauto].
  - intros [[= -> -> ->]|[]]. split; [by left|eauto].
Qed.

(** A loop that returns nil has sent each object of [toUpdate] once,
    with revision 0, and left it so in the store. *)
Lemma dispatch_success toUpdate :
  NoDup toUpdate →
  ∀ w st, outcome (dispatch toUpdate w st) = ReturnNil →
  ∀ p, p ∈ toUpdate →
    ∃ d sp, st !! p = Some d ∧ Spec d = Some sp ∧
      store (dispatch toUpdate w st) !! p =
        Some (withSpec d (requestRollback sp)) ∧
      updatesFor p (trace (dispatch toUpdate w st)) =
        [EUpdate p (withSpec d (requestRollback sp)) None].
Proof.
  induction 1 as [|q rest Hq Hnd IH]; intros w st Hout p Hp.
  { by apply elem_of_nil in Hp. }
  revert Hout. dispatch_step q st w; try done. intros Hout.
  apply elem_of_cons in Hp as [->|Hp].
  - exists d, sp. split; [done|]. split; [done|].
    destruct (dispatch_untouched rest w'
                (<[q:=withSpec d (requestRollback sp)]> st) q Hq)
      as [Hs Hu].
    unfold updatesFor in *. simpl. rewrite Nat.eqb_refl, Hu, Hs.
    split; [|done]. apply list_lookup_insert_eq.
    by eapply lookup_lt_Some.
  - assert (q ≠ p) as Hne by (intros ->; done).
    destruct (IH w' _ Hout p Hp) as (d0 & sp0 & Hl0 & Hs0 & Hst & Hu).
    rewrite list_lookup_insert_ne in Hl0 by done.
    exists d0, sp0. split; [done|]. split; [done|]. split; [done|].
    unfold updatesFor in *. simpl.
    apply Nat.eqb_neq in Hne. by rewrite Hne.
Qed.

(** A rejected update is the last event of the loop, and what comes
    before it are the accepted updates of the pointers before it. *)
Lemma dispatch_fail_fast toUpdate :
  ∀ w st t1 p d err t2,
    trace (dispatch toUpdate w st) = (t1 ++ EUpdate p d (Some err) :: t2)%list →
    t2 = [] ∧
    outcome (dispatch toUpdate w st) = ReturnErr ("update deployment: " ++ err) ∧
    (∀ q d' r, EUpdate q d' r ∈ t1 → r = None) ∧
    ∃ post, toUpdate = (updatePtrs t1 ++ p :: post)%list.
Proof.
  induction toUpdate as [|q rest IH]; intros w st t1 p d0 err0 t2.
  { simpl. by destruct t1. }
  dispatch_step q st w; intros Ht.
  - destruct t1 as [|e [|e' t1]]; simplify_eq/=.
    split; [done|]. split; [done|]. split; [|by exists rest].
    intros ??? Hin. by apply elem_of_nil in Hin.
  - destruct t1 as [|e [|e' t1]]; simpl in Ht; try discriminate.
    injection Ht as <- <- Ht.
    apply IH in Ht as (-> & Hout & Hresp & post & ->).
    split; [done|]. split; [done|]. split; [|by exists post].
    intros q' d' r. rewrite !elem_of_cons.
    intros [[= _ _ <-]|[?|Hin]]; [done|done|eauto].
  - destruct t1 as [|e [|e' t1]]; simplify_eq/=.
  - destruct t1 as [|e [|e' t1]]; simplify_eq/=.
  - by destruct t1.
  - by destruct t1.
Qed.
End Dispatch.

(** ** One pass *)

Lemma needsFrom_NoDup items : ∀ p, NoDup (needsFrom p items).
Proof.
  induction items as [|d rest IH]; intros p; simpl; [constructor|].
  destruct (needsRollbackb d); [|apply IH].
  constructor; [|apply IH].
  intros Hin. apply needsFrom_elem in Hin as (i & _ & Hp & _). lia.
Qed.

Lemma updatePtrs_app t1 t2 :
  updatePtrs (t1 ++ t2) = (updatePtrs t1 ++ updatePtrs t2)%list.
Proof.
  induction t1 as [|[] t1 IH]; simpl; try done. by rewrite IH.
Qed.

Lemma updatePtrs_elem t p :
  p ∈ updatePtrs t ↔ ∃ d r, EUpdate p d r ∈ t.
Proof.
  induction t as [|e t IH]; simpl.
  - rewrite elem_of_nil. split; [done|]. intros (d & r & Hin).
    by apply elem_of_nil in Hin.
  - destruct e; rewrite ?elem_of_cons, IH; split;
      try (intros (d0 & r0 & Hin); exists d0, r0; by right);
      try (intros (d0 & r0 & Hin); apply elem_of_cons in Hin as [?|?];
           [done|by exists d0, r0]).
    + intros [->|(d0 & r0 & Hin)]; [exists d, resp; by left|].
      exists d0, r0. by right.
    + intros (d0 & r0 & Hin). apply elem_of_cons in Hin as [[= -> _ _]|?];
        [by left|right; by exists d0, r0].
Qed.

Section Pass.
Context {W : Type} `{Directory W}.

Lemma run_listed ns w w1 items :
  ListDeployments ns w = (w1, inl items) →
  run ns w =
  match plan items with
  | Panic => mkPass w1 items [EList ns] Panicked
  | Done (toUpdate, failed) =>
      then_ [EList ns;
             ELogSummary (Z.of_nat (length items)) failed
               (failed - Z.of_nat (length toUpdate))]
        (dispatch toUpdate w1 items)
  end.
Proof. intros Hl. unfold run. by rewrite Hl. Qed.

Lemma run_list_failed ns w w1 err :
  ListDeployments ns w = (w1, inr err) →
  run ns w = mkPass w1 [] [EList ns] (ReturnErr ("list deployments: " ++ err)).
Proof. intros Hl. unfold run. by rewrite Hl. Qed.

(** Every update of a pass is for a listed record that is failed and has
    no rollback request, sent with only that request replaced. *)
Lemma run_update_inv ns w w1 items q d' r :
  ListDeployments ns w = (w1, inl items) →
  EUpdate q d' r ∈ trace (run ns w) →
  ∃ d sp, items !! q = Some d ∧ deploymentFailed d = Done true ∧
          Spec d = Some sp ∧ RollbackTo sp = None ∧
          d' = withSpec d (requestRollback sp).
Proof.
  intros Hl. rewrite (run_listed _ _ _ _ Hl).
  destruct (plan items) as [[tu f]|] eqn:Hp; simpl.
  - apply plan_done in Hp as [-> ->].
    rewrite !elem_of_cons. intros [?|[?|Hin]]; [done|done|].
    apply dispatch_update_inv in Hin as (Hq & d & sp & Hd & Hs & ->);
      [|apply needsFrom_NoDup].
    apply needsFrom_zero in Hq as (d0 & Hd0 & Hf & sp0 & Hs0 & Hr).
    assert (d0 = d) as -> by congruence.
    assert (sp0 = sp) as -> by congruence.
    eauto 8.
  - rewrite list_elem_of_singleton. done.
Qed.
End Pass.

(** C3. When the listing succeeds and the pass returns nil, every listed
    record that is failed and has no rollback request has been sent in
    exactly one update, and the object sent, which is also the object left
    in the store, carries a rollback request with revision 0. *)
Theorem rollback_issued_once {W : Type} `{Directory W}
    (ns : string) (w w1 : W) (items : list Deployment) :
  ListDeployments ns w = (w1, inl items) →
  outcome (run ns w) = ReturnNil →
  ∀ p d, items !! p = Some d → deploymentFailed d = Done true →
         rollbackAbsent d →
    ∃ d' sp',
      store (run ns w) !! p = Some d' ∧
      Spec d' = Some sp' ∧
      RollbackTo sp' = Some {| Revision := Some 0 |} ∧
      updatesFor p (trace (run ns w)) = [EUpdate p d' None].
Proof.
  intros Hl. rewrite (run_listed _ _ _ _ Hl).
  destruct (plan items) as [[tu f]|] eqn:Hp; simpl; [|done].
  apply plan_done in Hp as [-> ->].
  intros Hout p d Hd Hf Ha.
  assert (p ∈ needsFrom 0 items) as Hin by (apply needsFrom_zero; eauto).
  destruct (dispatch_success _ (needsFrom_NoDup items 0%nat) w1 items Hout p Hin)
    as (d0 & sp0 & Hd0 & Hs0 & Hst & Hu).
  exists (withSpec d0 (requestRollback sp0)), (requestRollback sp0).
  split; [done|]. split; [done|]. split; [done|]. exact Hu.
Qed.

Lemma rollback_issued_once_witness :
  outcome (run "default" scenario) = ReturnNil ∧
  ∃ d' sp',
    store (run "default" scenario) !! 1%nat = Some d' ∧
    Spec d' = Some sp' ∧
    RollbackTo sp' = Some {| Revision := Some 0 |} ∧
    updatesFor 1 (trace (run "default" scenario)) = [EUpdate 1 d' None].
Proof.
  split; [reflexivity|].
  apply (@rollback_issued_once Fake fakeDirectory "default" scenario scenario
           [recA; recB; recC] eq_refl eq_refl 1%nat recB eq_refl eq_refl).
  eexists. split; reflexivity.
Defined.

(** C4. When the listing succeeds, a listed record that already carries a
    rollback request is never in [toUpdate] and no update is issued for
    it during the pass, however the pass ends. *)
Theorem no_overwrite {W : Type} `{Directory W}
    (ns : string) (w w1 : W) (items : list Deployment) :
  ListDeployments ns w = (w1, inl items) →
  ∀ p d, items !! p = Some d → rollbackPresent d →
    (∀ toUpdate failed, plan items = Done (toUpdate, failed) → p ∉ toUpdate) ∧
    (p ∉ updatePtrs (trace (run ns w))) ∧
    (∀ d' r, EUpdate p d' r ∉ trace (run ns w)).
Proof.
  intros Hl p d Hd Hp.
  assert (∀ d' r, EUpdate p d' r ∉ trace (run ns w)) as Hno.
  { intros d' r Hin.
    destruct (run_update_inv _ _ _ _ _ _ _ Hl Hin)
      as (d0 & sp & Hd0 & _ & Hs & Hr & _).
    assert (d0 = d) as -> by congruence.
    apply (absent_not_present d); [by exists sp|done]. }
  split; [|split; [|done]].
  - intros tu f Hplan Hin. apply plan_done in Hplan as [-> _].
    apply needsFrom_zero in Hin as (d0 & Hd0 & _ & Ha).
    assert (d0 = d) as -> by congruence. eauto using absent_not_present.
  - rewrite updatePtrs_elem. intros (d' & r & Hin). by apply (Hno d' r).
Qed.

Lemma no_overwrite_witness :
  rollbackPresent recC ∧
  (2%nat ∉ updatePtrs (trace (run "default" scenario))).
Proof.
  assert (rollbackPresent recC) as Hp.
  { eexists _, _. split; reflexivity. }
  split; [exact Hp|].
  apply (@no_overwrite Fake fakeDirectory "default" scenario scenario
           [recA; recB; recC] eq_refl 2%nat recC eq_refl Hp).
Defined.

(** C5. When the listing succeeds and some update of the pass is
    rejected, that update is the last event of the pass and the pass
    returns its error; the updates before it were accepted and were
    issued, in order, for the pointers that precede it in [toUpdate]
    (which is in listing order); no update is issued for a pointer that
    follows it. *)
Theorem fail_fast {W : Type} `{Directory W}
    (ns : string) (w w1 : W) (items : list Deployment) :
  ListDeployments ns w = (w1, inl items) →
  ∀ t1 p d err t2,
    trace (run ns w) = (t1 ++ EUpdate p d (Some err) :: t2)%list →
    t2 = [] ∧
    outcome (run ns w) = ReturnErr ("update deployment: " ++ err) ∧
    (∀ q d' r, EUpdate q d' r ∈ t1 → r = None) ∧
    ∃ toUpdate failed post,
      plan items = Done (toUpdate, failed) ∧
      StronglySorted lt toUpdate ∧
      toUpdate = (updatePtrs t1 ++ p :: post)%list ∧
      updatePtrs (trace (run ns w)) = (updatePtrs t1 ++ [p])%list ∧
      (∀ q, q ∈ post → q ∉ updatePtrs (trace (run ns w))).
Proof.
  intros Hl t1 p d err t2. rewrite (run_listed _ _ _ _ Hl).
  destruct (plan items) as [[tu f]|] eqn:Hp; simpl.
  - intros Ht.
    destruct t1 as [|e [|e' t1]]; simpl in Ht; try discriminate.
    injection Ht as <- <- Ht.
    pose proof Ht as Ht'.
    apply dispatch_fail_fast in Ht as (-> & Hout & Hresp & post & Htu).
    split; [done|]. split; [done|]. split.
    { intros q d' r. rewrite !elem_of_cons.
      intros [?|[?|Hin]]; [done|done|eauto]. }
    exists tu, f, post. split; [done|].
    pose proof Hp as Hp'. apply plan_done in Hp' as [Hn _].
    split; [rewrite Hn; apply needsFrom_sorted|].
    split; [done|].
    rewrite Ht', updatePtrs_app. simpl. split; [done|].
    intros q Hq Hin.
    assert (NoDup tu) as Hnd by (rewrite Hn; apply needsFrom_NoDup).
    rewrite Htu in Hnd. apply NoDup_app in Hnd as (_ & Hdis & Hnd).
    apply NoDup_cons in Hnd as [Hnp _].
    apply elem_of_app in Hin as [Hin|Hin].
    + apply (Hdis q Hin). by right.
    + apply list_elem_of_singleton in Hin as ->. done.
  - intros Ht. destruct t1 as [|e [|e' t1]]; simpl in Ht; discriminate.
Qed.

Lemma fail_fast_witness :
  trace (run "default" threeFailing) =
    [EList "default"; ELogSummary 3 3 0;
     EUpdate 0 (requested (failing "x")) None; ELogRolledBack "x";
     EUpdate 1 (requested (failing "y")) (Some "conflict")] ∧
  outcome (run "default" threeFailing) =
    ReturnErr "update deployment: conflict" ∧
  records (world (run "default" threeFailing)) =
    [requested (failing "x"); failing "y"; failing "z"] ∧
  updatePtrs (trace (run "default" threeFailing)) = [0%nat; 1%nat].
Proof.
  split; [reflexivity|].
  split; [|split; reflexivity].
  apply (@fail_fast Fake fakeDirectory "default" threeFailing threeFailing
           [failing "x"; failing "y"; failing "z"] eq_refl
           [EList "default"; ELogSummary 3 3 0;
            EUpdate 0 (requested (failing "x")) None; ELogRolledBack "x"]
           1%nat (requested (failing "y")) "conflict" [] eq_refl).
Defined.

(** C6 as stated fails on the scenario [A], [B], [C]: the update of [B]
    comes after the summary line, not before it. *)
Lemma summary_precedes_dispatch :
  ¬ summaryAfterDispatch (trace (run "default" scenario)).
Proof.
  intros Hs.
  specialize (Hs 2%nat 1%nat (EUpdate 1 (requested recB) None)
                (ELogSummary 3 2 1) eq_refl eq_refl eq_refl eq_refl).
  lia.
Qed.

(** C6, amended. On a listing whose records carry a status and a spec, a
    pass does, in this order: the list call; the planning over the whole
    listing; one summary line with the number of records, the number of
    failed records and the latter minus the length of [toUpdate]; then the
    dispatch loop, which emits only updates and their log lines.  For a
    listing [A] (not failed), [B] (failed, no rollback request), [C]
    (failed, rollback request present) the summary is 3, 2, 1 and the only
    update is the one of [B], with revision 0. *)
Theorem pass_order {W : Type} `{Directory W}
    (ns : string) (w w1 : W) (items : list Deployment) :
  ListDeployments ns w = (w1, inl items) →
  Forall decoded items →
  ∃ toUpdate failed rest,
    plan items = Done (toUpdate, failed) ∧
    trace (run ns w) =
      EList ns ::
      ELogSummary (Z.of_nat (length items)) failed
        (failed - Z.of_nat (length toUpdate)) :: rest ∧
    rest = trace (dispatch toUpdate w1 items) ∧
    Forall (λ e, isDispatchEvent e = true) rest ∧
    (∀ a b c sp,
       items = [a; b; c] →
       deploymentFailed a = Done false →
       deploymentFailed b = Done true →
       Spec b = Some sp → RollbackTo sp = None →
       deploymentFailed c = Done true → rollbackPresent c →
       Z.of_nat (length items) = 3 ∧ failed = 2 ∧
       failed - Z.of_nat (length toUpdate) = 1 ∧
       RollbackTo (requestRollback sp) = Some {| Revision := Some 0 |} ∧
       ∃ r, updates rest = [EUpdate 1 (withSpec b (requestRollback sp)) r]).
Proof.
  intros Hl Hd. rewrite (run_listed _ _ _ _ Hl), (plan_decoded _ Hd).
  exists (needsFrom 0 items), (failedCount items),
    (trace (dispatch (needsFrom 0 items) w1 items)).
  split; [done|]. split; [done|]. split; [done|].
  split; [apply dispatch_events|].
  intros a b c sp -> Ha Hb Hsp Hr Hc (spc & rc & Hspc & Hrc).
  assert (needsFrom 0 [a; b; c] = [1%nat]) as ->.
  { simpl. unfold needsRollbackb, isFailedb, rollbackAbsentb.
    by rewrite Ha, Hb, Hc, Hsp, Hr, Hspc, Hrc. }
  assert (failedCount [a; b; c] = 2) as ->.
  { rewrite !failedCount_cons. unfold isFailedb. by rewrite Ha, Hb, Hc. }
  split; [done|]. split; [done|]. split; [done|]. split; [done|].
  simpl. rewrite Hsp.
  destruct (UpdateDeployment (withSpec b (requestRollback sp)) w1)
    as [w' [err|]]; simpl; [by eexists|].
  destruct (Metadata b) as [md|]; simpl; [|by eexists].
  destruct (Name md); simpl; by eexists.
Qed.

Lemma pass_order_witness :
  trace (run "default" scenario) =
    [EList "default"; ELogSummary 3 2 1;
     EUpdate 1 (requested recB) None; ELogRolledBack "b"] ∧
  ∃ toUpdate failed rest,
    plan [recA; recB; recC] = Done (toUpdate, failed) ∧
    trace (run "default" scenario) =
      EList "default" ::
      ELogSummary 3 failed (failed - Z.of_nat (length toUpdate)) :: rest ∧
    updates rest = [EUpdate 1 (requested recB) None].
Proof.
  split; [reflexivity|].
  destruct (@pass_order Fake fakeDirectory "default" scenario scenario
              [recA; recB; recC] eq_refl)
    as (tu & f & rest & Hp & Ht & Hrest & _ & _).
  - repeat constructor; eauto.
  - exists tu, f, rest. split; [exact Hp|]. split; [exact Ht|].
    vm_compute in Hp. injection Hp as <- <-. subst rest. reflexivity.
Defined.

(** C7. When the listing fails, the pass returns the list error at once:
    its only event is the list call, so there is no summary line and no
    update, and the world is the one that the list call left. *)
Theorem list_error_aborts {W : Type} `{Directory W}
    (ns : string) (w w1 : W) (err : string) :
  ListDeployments ns w = (w1, inr err) →
  outcome (run ns w) = ReturnErr ("list deployments: " ++ err) ∧
  trace (run ns w) = [EList ns] ∧
  updates (trace (run ns w)) = [] ∧
  world (run ns w) = w1.
Proof. intros Hl. unfold run. by rewrite Hl. Qed.

Lemma list_error_aborts_witness :
  outcome (run "default" unreachable) =
    ReturnErr "list deployments: timeout" ∧
  trace (run "default" unreachable) = [EList "default"] ∧
  updates (trace (run "default" unreachable)) = [] ∧
  world (run "default" unreachable) = unreachable.
Proof.
  apply (@list_error_aborts Fake fakeDirectory "default" unreachable
           unreachable "timeout" eq_refl).
Defined.

Lemma objKey_withSpec d sp : objKey (withSpec d sp) = objKey d.
Proof. reflexivity. Qed.

(** C8. After a pass that returned nil and sent an accepted update for a
    record, if every record of the next listing with the same namespace
    and name carries a rollback request, then the pass run next issues no
    update for a record of that namespace and name. *)
Theorem second_pass_idempotent {W : Type} `{Directory W}
    (ns : string) (w : W) :
  outcome (run ns w) = ReturnNil →
  ∀ p d, EUpdate p d None ∈ trace (run ns w) →
    (∀ w2 items2 d2,
       ListDeployments ns (world (run ns w)) = (w2, inl items2) →
       d2 ∈ items2 → objKey d2 = objKey d → rollbackPresent d2) →
    ∀ q d' r, EUpdate q d' r ∈ trace (run ns (world (run ns w))) →
              objKey d' ≠ objKey d.
Proof.
  intros _ p d _ Hreflect q d' r Hin Hkey.
  destruct (ListDeployments ns (world (run ns w))) as [w2 [items2|err]] eqn:Hl.
  - destruct (run_update_inv _ _ _ _ _ _ _ Hl Hin)
      as (d0 & sp & Hd0 & _ & Hs & Hr & ->).
    rewrite objKey_withSpec in Hkey.
    apply (absent_not_present d0); [by exists sp|].
    apply (Hreflect w2 items2 d0 eq_refl); [|done].
    apply list_elem_of_lookup. by exists q.
  - rewrite (run_list_failed _ _ _ _ Hl) in Hin. simpl in Hin.
    by apply list_elem_of_singleton in Hin.
Qed.

Lemma second_pass_idempotent_witness :
  EUpdate 1 (requested recB) None ∈ trace (run "default" scenario) ∧
  records (world (run "default" scenario)) =
    [recA; requested recB; recC] ∧
  updates (trace (run "default" (world (run "default" scenario)))) = [] ∧
  EUpdate 1 (requested recB) None ∉
    trace (run "default" (world (run "default" scenario))).
Proof.
  assert (EUpdate 1 (requested recB) None ∈ trace (run "default" scenario))
    as Hfirst.
  { apply list_elem_of_lookup. by exists 2%nat. }
  split; [exact Hfirst|]. split; [reflexivity|]. split; [reflexivity|].
  intros Hin.
  apply (@second_pass_idempotent Fake fakeDirectory "default" scenario
           eq_refl 1%nat (requested recB) Hfirst) in Hin; [by apply Hin|].
  intros w2 items2 d2 Hl Hd2 Hkey.
  assert (items2 = [recA; requested recB; recC]) as ->.
  { change (ListDeployments "default" (world (run "default" scenario)))
      with (mkFake [recA; requested recB; recC] None [],
            @inl (list Deployment) string [recA; requested recB; recC]) in Hl.
    by injection Hl as _ <-. }
  rewrite !elem_of_cons, elem_of_nil in Hd2.
  destruct Hd2 as [->|[->|[->|[]]]]; [discriminate Hkey| |discriminate Hkey].
  eexists _, _. split; reflexivity.
Defined.

(** C9 fails on the code.  A record decoded without a status makes
    [deploymentFailed] panic at [d.Status.Conditions] (line 25): the
    planning loop panics with it, the pass ends there, right after the
    list call, and so does the loop of [main]. *)
Theorem statusless_record_panics :
  deploymentFailed statusless = Panic ∧
  plan [statusless] = Panic ∧
  run "default" (mkFake [statusless] None []) =
    mkPass (mkFake [statusless] None []) [statusless] [EList "default"]
      Panicked ∧
  crashed (mainLoop 1 "default" (mkFake [statusless] None [])) = true.
Proof. repeat split. Qed.

(** C10. When the listing succeeds, every update of the pass is for a
    listed record that is failed and has no rollback request, and the
    object sent has the metadata, the status and every field of the spec
    of the listed record, except the rollback request, which is revision
    0.  An object whose pointer is not in [toUpdate] is left as listed in
    the store and no update is issued for it. *)
Theorem update_frame {W : Type} `{Directory W}
    (ns : string) (w w1 : W) (items : list Deployment) :
  ListDeployments ns w = (w1, inl items) →
  (∀ q d' r, EUpdate q d' r ∈ trace (run ns w) →
     ∃ d sp sp',
       items !! q = Some d ∧ deploymentFailed d = Done true ∧
       rollbackAbsent d ∧
       Spec d = Some sp ∧ Spec d' = Some sp' ∧
       Metadata d' = Metadata d ∧ Status d' = Status d ∧
       Replicas sp' = Replicas sp ∧ Paused sp' = Paused sp ∧
       ProgressDeadlineSeconds sp' = ProgressDeadlineSeconds sp ∧
       RollbackTo sp' = Some {| Revision := Some 0 |}) ∧
  (∀ toUpdate failed p,
     plan items = Done (toUpdate, failed) → p ∉ toUpdate →
     store (run ns w) !! p = items !! p ∧
     updatesFor p (trace (run ns w)) = []).
Proof.
  intros Hl. split.
  - intros q d' r Hin.
    destruct (run_update_inv _ _ _ _ _ _ _ Hl Hin)
      as (d & sp & Hd & Hf & Hs & Hr & ->).
    exists d, sp, (requestRollback sp).
    split; [done|]. split; [done|]. split; [by exists sp|].
    repeat (split; [done|]). done.
  - intros tu f p Hp Hnin. rewrite (run_listed _ _ _ _ Hl), Hp. simpl.
    destruct (dispatch_untouched tu w1 items p Hnin) as [Hs Hu].
    split; [done|]. unfold updatesFor in *. simpl. exact Hu.
Qed.

Lemma update_frame_witness :
  updates (trace (run "default" scenario)) =
    [EUpdate 1 (requested recB) None] ∧
  (∃ d sp sp',
     [recA; recB; recC] !! 1%nat = Some d ∧
     deploymentFailed d = Done true ∧ rollbackAbsent d ∧
     Spec d = Some sp ∧ Spec (requested recB) = Some sp' ∧
     Metadata (requested recB) = Metadata d ∧
     Status (requested recB) = Status d ∧
     Replicas sp' = Replicas sp ∧ Paused sp' = Paused sp ∧
     ProgressDeadlineSeconds sp' = ProgressDeadlineSeconds sp ∧
     RollbackTo sp' = Some {| Revision := Some 0 |}) ∧
  store (run "default" scenario) !! 0%nat = Some recA ∧
  store (run "default" scenario) !! 2%nat = Some recC.
Proof.
  destruct (@update_frame Fake fakeDirectory "default" scenario scenario
              [recA; recB; recC] eq_refl) as [Hsent Hrest].
  split; [reflexivity|]. split.
  - apply (Hsent 1%nat (requested recB) None).
    apply list_elem_of_lookup. by exists 2%nat.
  - split; reflexivity.
Defined.

(** ** More on the classifier *)

Lemma stalled_condKey c :
  stalled c ↔
  condKey c = (Some "Progressing", Some "False", Some "ProgressDeadlineExceeded").
Proof.
  unfold stalled, condKey. split.
  - by intros (-> & -> & ->).
  - by intros [= -> -> ->].
Qed.

Lemma rangeConditions_keys conds :
  rangeConditions conds = true ↔
  (Some "Progressing", Some "False", Some "ProgressDeadlineExceeded")
    ∈ condKey <$> conds.
Proof.
  rewrite rangeConditions_true, list_elem_of_fmap. split.
  - intros (c & Hin & Hs). exists c. by apply stalled_condKey in Hs.
  - intros (c & Hk & Hin). exists c. split; [done|]. by apply stalled_condKey.
Qed.

(** X1. The answer of [deploymentFailed] depends only on which triples of
    type, status and reason occur among the conditions: two records whose
    conditions show the same triples, in any order, any number of times
    and with any messages, get the same answer. *)
Theorem deploymentFailed_same_keys (d1 d2 : Deployment)
    (st1 st2 : DeploymentStatus) :
  Status d1 = Some st1 → Status d2 = Some st2 →
  (∀ k, k ∈ condKey <$> Conditions st1 ↔ k ∈ condKey <$> Conditions st2) →
  deploymentFailed d1 = deploymentFailed d2.
Proof.
  intros H1 H2 Hk. unfold deploymentFailed. rewrite H1, H2. f_equal.
  pose proof (rangeConditions_keys (Conditions st1)) as R1.
  pose proof (rangeConditions_keys (Conditions st2)) as R2.
  rewrite Hk in R1.
  destruct (rangeConditions (Conditions st1)), (rangeConditions (Conditions st2));
    try done.
  - symmetry. apply R2, R1. done.
  - apply R1, R2. done.
Qed.

Lemma deploymentFailed_same_keys_witness :
  deploymentFailed (failing "b") =
  deploymentFailed
    {| Metadata := None; Spec := None;
       Status := statusWith [condStalled; condAvailable; condStalled] |}.
Proof.
  eapply deploymentFailed_same_keys; [reflexivity|reflexivity|].
  intros k. simpl. rewrite !elem_of_cons, !elem_of_nil. tauto.
Defined.

(** X2. Conditions added to the status of a failed record never make it
    not failed: if every triple of type, status and reason of one record
    occurs in another, and the first is failed, so is the second. *)
Theorem deploymentFailed_monotone (d1 d2 : Deployment)
    (st1 st2 : DeploymentStatus) :
  Status d1 = Some st1 → Status d2 = Some st2 →
  (∀ k, k ∈ condKey <$> Conditions st1 → k ∈ condKey <$> Conditions st2) →
  deploymentFailed d1 = Done true →
  deploymentFailed d2 = Done true.
Proof.
  intros H1 H2 Hk. unfold deploymentFailed. rewrite H1, H2.
  intros [= Hr]. f_equal. apply rangeConditions_keys, Hk.
  by apply rangeConditions_keys.
Qed.

Lemma deploymentFailed_monotone_witness :
  deploymentFailed (failing "b") = Done true.
Proof.
  eapply (deploymentFailed_monotone (handled "c") (failing "b"));
    [reflexivity|reflexivity| |reflexivity].
  intros k. simpl. rewrite !elem_of_cons, !elem_of_nil. tauto.
Defined.

(** ** More on the planner *)

Lemma readable_failed d :
  readable d → isFailedb d = true → rollbackAbsentb d = negb (rollbackPresentb d).
Proof.
  intros [_ Hs] Hf. apply isFailedb_true in Hf.
  destruct (Hs Hf) as [sp Hsp]. unfold rollbackAbsentb, rollbackPresentb.
  rewrite Hsp. by destruct (RollbackTo sp).
Qed.

Lemma planLoop_readable items :
  Forall readable items →
  ∀ p toUpdate failed,
    planLoop items p toUpdate failed =
    Done ((toUpdate ++ needsFrom p items)%list, failed + failedCount items).
Proof.
  induction 1 as [|d rest Hr _ IH]; intros p tu f.
  - simpl. rewrite app_nil_r. unfold failedCount. simpl. do 2 f_equal. lia.
  - rewrite failedCount_cons. simpl. destruct Hr as [[st Hst] Hsp].
    unfold needsRollbackb, isFailedb, rollbackAbsentb.
    destruct (deploymentFailed d) as [[]|] eqn:Hf.
    + destruct (Hsp eq_refl) as [sp ->]. simpl.
      destruct (RollbackTo sp); rewrite IH.
      * do 2 f_equal. lia.
      * rewrite <- app_assoc. simpl. do 2 f_equal. lia.
    + simpl. rewrite IH. do 2 f_equal.
    + unfold deploymentFailed in Hf. by rewrite Hst in Hf.
Qed.

Lemma planLoop_done_readable items :
  ∀ p toUpdate failed r,
    planLoop items p toUpdate failed = Done r → Forall readable items.
Proof.
  induction items as [|d rest IH]; intros p tu f r; simpl; [constructor|].
  destruct (deploymentFailed d) as [[]|] eqn:Hf; [| |done].
  - destruct (Spec d) as [sp|] eqn:Hsp; [|done].
    intros Hp. constructor.
    + split; [|eauto]. unfold deploymentFailed in Hf.
      destruct (Status d); [eauto|done].
    + destruct (RollbackTo sp); eauto.
  - intros Hp. constructor; [|eauto]. split.
    + unfold deploymentFailed in Hf. destruct (Status d); [eauto|done].
    + congruence.
Qed.

Lemma needsFrom_length items :
  Forall readable items →
  ∀ p, Z.of_nat (length (needsFrom p items)) + handledCount items =
       failedCount items.
Proof.
  induction 1 as [|d rest Hr _ IH]; intros p.
  - reflexivity.
  - specialize (IH (S p)). rewrite failedCount_cons.
    unfold handledCount in *. simpl. unfold needsRollbackb.
    destruct (isFailedb d) eqn:Hf; simpl; [|lia].
    rewrite (readable_failed d Hr Hf).
    destruct (rollbackPresentb d); simpl; lia.
Qed.

Lemma needsFrom_bound items :
  ∀ p q, q ∈ needsFrom p items → (q < p + length items)%nat.
Proof.
  intros p q Hq. apply needsFrom_elem in Hq as (i & d & -> & Hl & _).
  apply lookup_lt_Some in Hl. lia.
Qed.

(** X3. The planning loop returns exactly on the listings it can read:
    every record has a status, and every failed record has a spec.  On
    any other listing it dereferences a nil pointer. *)
Theorem plan_returns_iff (items : list Deployment) :
  (∃ toUpdate failed, plan items = Done (toUpdate, failed)) ↔
  Forall readable items.
Proof.
  split.
  - intros (tu & f & Hp). by eapply planLoop_done_readable.
  - intros Hr. unfold plan. rewrite (planLoop_readable _ Hr). eauto.
Qed.

(** X4. In a plan the loop returns, [toUpdate] is no longer than
    [failed], [failed] is at most the number of records, and every
    pointer of [toUpdate] is one of the listing; so the third number of
    the summary line lies between 0 and [failed]. *)
Theorem plan_bounds (items : list Deployment) (toUpdate : list nat)
    (failed : Z) :
  plan items = Done (toUpdate, failed) →
  (0 ≤ failed - Z.of_nat (length toUpdate) ≤ failed)%Z ∧
  (failed ≤ Z.of_nat (length items))%Z ∧
  (∀ p, p ∈ toUpdate → (p < length items)%nat).
Proof.
  intros Hp. pose proof (planLoop_done_readable _ _ _ _ _ Hp) as Hr.
  apply plan_done in Hp as [-> ->].
  pose proof (needsFrom_length items Hr 0%nat) as Hlen.
  assert (0 ≤ handledCount items)%Z by (unfold handledCount; lia).
  split; [lia|]. split.
  - unfold failedCount. pose proof (List.filter_length_le isFailedb items). lia.
  - intros p Hin. by apply needsFrom_bound in Hin.
Qed.

Lemma plan_bounds_witness :
  (0 ≤ 2 - Z.of_nat (length [1%nat]) ≤ 2)%Z ∧
  (2 ≤ Z.of_nat (length [recA; recB; recC]))%Z ∧
  (∀ p, p ∈ [1%nat] → (p < length [recA; recB; recC])%nat).
Proof. apply (plan_bounds [recA; recB; recC] [1%nat] 2 eq_refl). Defined.

(** X5. The third number of the summary line, [failed - len(toUpdate)],
    is the number of failed records that carried a rollback request when
    they were listed. *)
Theorem plan_handled (items : list Deployment) (toUpdate : list nat)
    (failed : Z) :
  plan items = Done (toUpdate, failed) →
  failed - Z.of_nat (length toUpdate) =
  Z.of_nat
    (length (List.filter (λ d, isFailedb d && rollbackPresentb d) items)).
Proof.
  intros Hp. pose proof (planLoop_done_readable _ _ _ _ _ Hp) as Hr.
  apply plan_done in Hp as [-> ->].
  pose proof (needsFrom_length items Hr 0%nat) as Hlen.
  unfold handledCount in Hlen. lia.
Qed.

Lemma plan_handled_witness :
  2 - Z.of_nat (length [1%nat]) =
  Z.of_nat
    (length (List.filter (λ d, isFailedb d && rollbackPresentb d)
               [recA; recB; recC])).
Proof. apply (plan_handled [recA; recB; recC] [1%nat] 2 eq_refl). Defined.

(** ** More on the dispatch loop *)

Lemma nameOf_withSpec d sp : nameOf (withSpec d sp) = nameOf d.
Proof. reflexivity. Qed.

Lemma requested_spec d sp :
  Spec d = Some sp → requested d = withSpec d (requestRollback sp).
Proof. intros Hs. unfold requested. by rewrite Hs. Qed.

Lemma flat_map_agree {A B} (f g : A → list B) (l : list A) :
  (∀ x, x ∈ l → f x = g x) → flat_map f l = flat_map g l.
Proof.
  induction l as [|x l IH]; intros Hfg; simpl; [done|].
  rewrite (Hfg x) by left. rewrite IH; [done|].
  intros y Hy. apply Hfg. by right.
Qed.

Section DispatchMore.
Context {W : Type} `{Directory W}.

Lemma dispatch_length toUpdate :
  ∀ w st, length (store (dispatch toUpdate w st)) = length st.
Proof.
  induction toUpdate as [|p rest IH]; intros w st; [done|].
  dispatch_step p st w; rewrite ?IH, ?length_insert; done.
Qed.

Lemma dispatch_no_panic toUpdate :
  NoDup toUpdate →
  ∀ w st,
    (∀ p, p ∈ toUpdate →
          ∃ d, st !! p = Some d ∧ is_Some (Spec d) ∧ is_Some (nameOf d)) →
    outcome (dispatch toUpdate w st) ≠ Panicked.
Proof.
  induction 1 as [|q rest Hq Hnd IH]; intros w st Hok; [done|].
  destruct (Hok q) as (d0 & Hd0 & [sp0 Hsp0] & [n0 Hn0]); [by left|].
  unfold nameOf in Hn0.
  dispatch_step q st w; simplify_eq; try done;
    try (rewrite Hmeta in Hn0; simpl in Hn0; congruence).
  apply IH. intros p Hp.
  rewrite list_lookup_insert_ne by (intros ->; done).
  apply Hok. by right.
Qed.

Lemma rolledBackEvents_insert st q d p :
  p ≠ q → rolledBackEvents (<[q:=d]> st) p = rolledBackEvents st p.
Proof.
  intros Hne. unfold rolledBackEvents.
  by rewrite list_lookup_insert_ne by done.
Qed.

Lemma dispatch_success_trace toUpdate :
  NoDup toUpdate →
  ∀ w st, outcome (dispatch toUpdate w st) = ReturnNil →
    trace (dispatch toUpdate w st) = flat_map (rolledBackEvents st) toUpdate.
Proof.
  induction 1 as [|q rest Hq Hnd IH]; intros w st; [done|].
  dispatch_step q st w; try done. intros Hout.
  rewrite (IH _ _ Hout). unfold rolledBackEvents at 2.
  rewrite Hlookup, Hspec. unfold nameOf. rewrite Hmeta, Hname. simpl.
  do 2 f_equal. apply flat_map_agree. intros p Hp.
  apply rolledBackEvents_insert. by intros ->.
Qed.

Lemma dispatch_log_after_update toUpdate :
  ∀ w st t1 n t2,
    trace (dispatch toUpdate w st) = (t1 ++ ELogRolledBack n :: t2)%list →
    ∃ t0 p d, t1 = (t0 ++ [EUpdate p d None])%list ∧ nameOf d = Some n.
Proof.
  induction toUpdate as [|q rest IH]; intros w st t1 n0 t2.
  { simpl. by destruct t1. }
  dispatch_step q st w; intros Ht;
    try (destruct t1 as [|e [|e' t1]]; simpl in Ht; discriminate).
  destruct t1 as [|e [|e' t1]]; simpl in Ht; [done| |].
  - injection Ht as <- <- _.
    exists [], q, (withSpec d (requestRollback sp)). split; [done|].
    unfold nameOf. simpl. by rewrite Hmeta.
  - injection Ht as <- <- Ht.
    apply IH in Ht as (t0 & p & d1 & -> & Hn).
    by exists (EUpdate q (withSpec d (requestRollback sp)) None
                 :: ELogRolledBack n :: t0), p, d1.
Qed.

Lemma dispatch_error toUpdate :
  ∀ w st msg,
    outcome (dispatch toUpdate w st) = ReturnErr msg →
    ∃ t p d err,
      msg = "update deployment: " ++ err ∧
      trace (dispatch toUpdate w st) = (t ++ [EUpdate p d (Some err)])%list.
Proof.
  induction toUpdate as [|q rest IH]; intros w st msg; [done|].
  dispatch_step q st w; try done.
  - intros [= <-]. by exists [], q, (withSpec d (requestRollback sp)), err.
  - intros Hout. apply IH in Hout as (t & p & d1 & e & -> & ->).
    by exists (EUpdate q (withSpec d (requestRollback sp)) None
                 :: ELogRolledBack n :: t), p, d1, e.
Qed.

Lemma dispatch_replay toUpdate :
  ∀ w st,
    world (dispatch toUpdate w st) = replay (trace (dispatch toUpdate w st)) w ∧
    answered (trace (dispatch toUpdate w st)) w.
Proof.
  induction toUpdate as [|q rest IH]; intros w st; [done|].
  dispatch_step q st w; rewrite ?Hupd; simpl; try done.
  destruct (IH w' (<[q:=withSpec d (requestRollback sp)]> st)) as [Hw Ha].
  done.
Qed.

Lemma dispatch_unreached toUpdate :
  ∀ w st p,
    p ∉ updatePtrs (trace (dispatch toUpdate w st)) →
    store (dispatch toUpdate w st) !! p = st !! p.
Proof.
  induction toUpdate as [|q rest IH]; intros w st p; [done|].
  dispatch_step q st w; try done.
  - intros Hp. apply list_lookup_insert_ne. intros ->. apply Hp. left.
  - intros Hp. rewrite IH by (intros Hin; apply Hp; by right).
    apply list_lookup_insert_ne. intros ->. apply Hp. left.
  - intros Hp. apply list_lookup_insert_ne. intros ->. apply Hp. left.
  - intros Hp. apply list_lookup_insert_ne. intros ->. apply Hp. left.
Qed.
End DispatchMore.

(** ** More on one pass *)

Section PassMore.
Context {W : Type} `{Directory W}.

Lemma run_cases ns w :
  (∃ w1 err, ListDeployments ns w = (w1, inr err) ∧
     run ns w = mkPass w1 [] [EList ns] (ReturnErr ("list deployments: " ++ err))) ∨
  (∃ w1 items, ListDeployments ns w = (w1, inl items) ∧ plan items = Panic ∧
     run ns w = mkPass w1 items [EList ns] Panicked) ∨
  (∃ w1 items,
     ListDeployments ns w = (w1, inl items) ∧
     plan items = Done (needsFrom 0 items, failedCount items) ∧
     run ns w =
       then_ [EList ns;
              ELogSummary (Z.of_nat (length items)) (failedCount items)
                (failedCount items - Z.of_nat (length (needsFrom 0 items)))]
         (dispatch (needsFrom 0 items) w1 items)).
Proof.
  destruct (ListDeployments ns w) as [w1 [items|err]] eqn:Hl.
  - right. rewrite (run_listed _ _ _ _ Hl).
    destruct (plan items) as [[tu f]|] eqn:Hp.
    + right. pose proof Hp as Hp'. apply plan_done in Hp' as [-> ->].
      by exists w1, items.
    + left. by exists w1, items.
  - left. exists w1, err. split; [done|]. by apply run_list_failed.
Qed.

Lemma needsFrom_listed items p :
  p ∈ needsFrom 0 items →
  ∃ d sp, items !! p = Some d ∧ deploymentFailed d = Done true ∧
          Spec d = Some sp ∧ RollbackTo sp = None.
Proof.
  intros (d & Hd & Hf & sp & Hs & Hr)%needsFrom_zero. eauto 8.
Qed.
End PassMore.

(** X6. A pass never panics on a listing in which every record has a
    status, every failed record has a spec, and every failed record
    without a rollback request has a name. *)
Theorem run_no_panic {W : Type} `{Directory W}
    (ns : string) (w w1 : W) (items : list Deployment) :
  ListDeployments ns w = (w1, inl items) →
  Forall readable items →
  Forall loggable items →
  outcome (run ns w) ≠ Panicked.
Proof.
  intros Hl Hr Hn. rewrite (run_listed _ _ _ _ Hl).
  unfold plan. rewrite (planLoop_readable _ Hr). simpl.
  apply dispatch_no_panic; [apply needsFrom_NoDup|].
  intros p (d & sp & Hd & Hf & Hs & Hrb)%needsFrom_listed.
  exists d. split; [done|]. split; [eauto|].
  eapply Forall_lookup_1 in Hn; [|exact Hd].
  apply Hn; [done|]. by exists sp.
Qed.

Lemma run_no_panic_witness : outcome (run "default" threeFailing) ≠ Panicked.
Proof.
  apply (@run_no_panic Fake fakeDirectory "default" threeFailing threeFailing
           [failing "x"; failing "y"; failing "z"] eq_refl).
  - repeat constructor; eauto.
  - repeat constructor; intros _ _; eexists; reflexivity.
Defined.

(** X7. One record that the planning loop cannot read, anywhere in the
    listing, stops the whole pass: if some listed record has no status,
    or is failed and has no spec, the pass panics with the list call as
    its only event, so no summary is logged and no update is issued, not
    even for the failed records listed before that one. *)
Theorem run_panic_in_planning {W : Type} `{Directory W}
    (ns : string) (w w1 : W) (items : list Deployment) (d : Deployment) :
  ListDeployments ns w = (w1, inl items) →
  d ∈ items → ¬ readable d →
  run ns w = mkPass w1 items [EList ns] Panicked.
Proof.
  intros Hl Hd Hnr. rewrite (run_listed _ _ _ _ Hl).
  destruct (plan items) as [[tu f]|] eqn:Hp; [|done].
  exfalso. apply Hnr.
  apply planLoop_done_readable in Hp.
  by eapply Forall_forall in Hp.
Qed.

Lemma run_panic_in_planning_witness :
  run "default" (mkFake [recB; statusless; recC] None []) =
  mkPass (mkFake [recB; statusless; recC] None []) [recB; statusless; recC]
    [EList "default"] Panicked.
Proof.
  apply (@run_panic_in_planning Fake fakeDirectory "default"
           (mkFake [recB; statusless; recC] None [])
           (mkFake [recB; statusless; recC] None [])
           [recB; statusless; recC] statusless eq_refl).
  - right. left.
  - intros [[st Hst] _]. discriminate Hst.
Defined.

(** X8. A pass that returns nil has done exactly this: the list call, the
    summary line, and for each pointer of [toUpdate], in order, an
    accepted update of the listed record with revision 0 followed by the
    log line with its name. *)
Theorem run_success_trace {W : Type} `{Directory W}
    (ns : string) (w w1 : W) (items : list Deployment) :
  ListDeployments ns w = (w1, inl items) →
  outcome (run ns w) = ReturnNil →
  ∃ toUpdate failed,
    plan items = Done (toUpdate, failed) ∧
    trace (run ns w) =
      EList ns ::
      ELogSummary (Z.of_nat (length items)) failed
        (failed - Z.of_nat (length toUpdate)) ::
      flat_map (rolledBackEvents items) toUpdate.
Proof.
  intros Hl. rewrite (run_listed _ _ _ _ Hl).
  destruct (plan items) as [[tu f]|] eqn:Hp; simpl; [|done].
  intros Hout. exists tu, f. split; [done|]. do 2 f_equal.
  apply plan_done in Hp as [-> ->].
  by apply dispatch_success_trace; [apply needsFrom_NoDup|].
Qed.

Lemma run_success_trace_witness :
  ∃ toUpdate failed,
    plan [recA; recB; recC] = Done (toUpdate, failed) ∧
    trace (run "default" scenario) =
      EList "default" ::
      ELogSummary 3 failed (failed - Z.of_nat (length toUpdate)) ::
      flat_map (rolledBackEvents [recA; recB; recC]) toUpdate.
Proof.
  apply (@run_success_trace Fake fakeDirectory "default" scenario scenario
           [recA; recB; recC] eq_refl eq_refl).
Defined.

(** X9. Every line "rolled back deployment: n" of a pass comes right
    after an update that the Directory accepted, and [n] is the name of
    the object that update sent. *)
Theorem log_after_update {W : Type} `{Directory W}
    (ns : string) (w : W) (t1 t2 : list Event) (n : string) :
  trace (run ns w) = (t1 ++ ELogRolledBack n :: t2)%list →
  ∃ t0 p d, t1 = (t0 ++ [EUpdate p d None])%list ∧ nameOf d = Some n.
Proof.
  destruct (run_cases ns w)
    as [(w1 & err & _ & ->)|[(w1 & items & _ & _ & ->)|(w1 & items & _ & _ & ->)]];
    simpl; intros Ht;
    try (destruct t1 as [|e [|e' t1]]; simpl in Ht; discriminate).
  destruct t1 as [|e [|e' t1]]; simpl in Ht; try discriminate.
  injection Ht as <- <- Ht.
  apply dispatch_log_after_update in Ht as (t0 & p & d & -> & Hn).
  by exists (EList ns :: ELogSummary (Z.of_nat (length items))
               (failedCount items)
               (failedCount items - Z.of_nat (length (needsFrom 0 items)))
               :: t0), p, d.
Qed.

Lemma log_after_update_witness :
  ∃ t0 p d,
    [EList "default"; ELogSummary 3 2 1; EUpdate 1 (requested recB) None] =
      (t0 ++ [EUpdate p d None])%list ∧
    nameOf d = Some "b".
Proof.
  apply (@log_after_update Fake fakeDirectory "default" scenario
           [EList "default"; ELogSummary 3 2 1;
            EUpdate 1 (requested recB) None] [] "b" eq_refl).
Defined.

(** X10. The error of a pass is one of two: "list deployments: " and the
    error of the list call, which is then the only event; or "update
    deployment: " and the error of the update that is the last event. *)
Theorem run_error_forms {W : Type} `{Directory W}
    (ns : string) (w : W) (msg : string) :
  outcome (run ns w) = ReturnErr msg →
  (∃ w1 err, ListDeployments ns w = (w1, inr err) ∧
             msg = "list deployments: " ++ err ∧
             trace (run ns w) = [EList ns]) ∨
  (∃ t p d err, msg = "update deployment: " ++ err ∧
                trace (run ns w) = (t ++ [EUpdate p d (Some err)])%list).
Proof.
  destruct (run_cases ns w)
    as [(w1 & err & Hl & ->)|[(w1 & items & _ & _ & ->)|(w1 & items & _ & _ & ->)]];
    simpl.
  - intros [= <-]. left. by exists w1, err.
  - done.
  - intros Hout. right.
    apply dispatch_error in Hout as (t & p & d & err & -> & ->).
    by eexists (_ :: _ :: t), p, d, err.
Qed.

Lemma run_error_forms_witness :
  (∃ w1 err, ListDeployments "default" threeFailing = (w1, inr err) ∧
             "update deployment: conflict" = "list deployments: " ++ err ∧
             trace (run "default" threeFailing) = [EList "default"]) ∨
  (∃ t p d err, "update deployment: conflict" = "update deployment: " ++ err ∧
                trace (run "default" threeFailing) =
                  (t ++ [EUpdate p d (Some err)])%list).
Proof.
  apply (@run_error_forms Fake fakeDirectory "default" threeFailing
           "update deployment: conflict" eq_refl).
Defined.

(** X11. A pass touches the Directory through the list call and the
    updates of its trace only: the world it leaves is the one the list
    call left, after those updates in order, and each update carries the
    answer the Directory gave to it. *)
Theorem run_replay {W : Type} `{Directory W} (ns : string) (w : W) :
  world (run ns w) = replay (trace (run ns w)) (ListDeployments ns w).1 ∧
  answered (trace (run ns w)) (ListDeployments ns w).1.
Proof.
  destruct (run_cases ns w)
    as [(w1 & err & -> & ->)|[(w1 & items & -> & _ & ->)
                             |(w1 & items & -> & _ & ->)]];
    simpl; try done.
  apply dispatch_replay.
Qed.

(** X12. After a pass the slice of listed objects has the length it
    had, and every object for which the pass issued no update is exactly
    as listed: among them the objects of [toUpdate] that the loop did not
    reach after a rejected update. *)
Theorem run_store {W : Type} `{Directory W}
    (ns : string) (w w1 : W) (items : list Deployment) :
  ListDeployments ns w = (w1, inl items) →
  length (store (run ns w)) = length items ∧
  ∀ p d, items !! p = Some d →
    p ∉ updatePtrs (trace (run ns w)) → store (run ns w) !! p = Some d.
Proof.
  intros Hl. rewrite (run_listed _ _ _ _ Hl).
  destruct (plan items) as [[tu f]|] eqn:Hp; simpl; [|done].
  split; [apply dispatch_length|].
  intros p d Hd Hnin. by rewrite dispatch_unreached.
Qed.

Lemma run_store_witness :
  needsFrom 0 [failing "x"; failing "y"; failing "z"] =
    [0%nat; 1%nat; 2%nat] ∧
  length (store (run "default" threeFailing)) = 3%nat ∧
  store (run "default" threeFailing) !! 2%nat = Some (failing "z").
Proof.
  destruct (@run_store Fake fakeDirectory "default" threeFailing threeFailing
              [failing "x"; failing "y"; failing "z"] eq_refl) as [Hlen Hst].
  split; [reflexivity|]. split; [exact Hlen|].
  apply (Hst 2%nat (failing "z") eq_refl).
  change (2%nat ∉ [0%nat; 1%nat]).
  rewrite !elem_of_cons, elem_of_nil. lia.
Defined.

(** X13. When every failed record of a readable listing already carries a
    rollback request (in particular when the listing is empty or nothing
    is failed), the pass makes no update: it lists, logs the summary with
    its last two numbers equal, and returns nil, leaving the world as the
    list call left it. *)
Theorem run_quiet {W : Type} `{Directory W}
    (ns : string) (w w1 : W) (items : list Deployment) :
  ListDeployments ns w = (w1, inl items) →
  Forall readable items →
  (∀ d, d ∈ items → deploymentFailed d = Done true → rollbackPresent d) →
  run ns w =
  mkPass w1 items
    [EList ns;
     ELogSummary (Z.of_nat (length items)) (failedCount items)
       (failedCount items)]
    ReturnNil.
Proof.
  intros Hl Hr Hh. rewrite (run_listed _ _ _ _ Hl).
  unfold plan. rewrite (planLoop_readable _ Hr). simpl.
  assert (needsFrom 0 items = []) as ->.
  { apply elem_of_nil_inv. intros p (d & Hd & Hf & Ha)%needsFrom_zero.
    apply (absent_not_present d Ha). apply Hh; [|done].
    apply list_elem_of_lookup. by exists p. }
  simpl. unfold then_. simpl. by rewrite Z.sub_0_r.
Qed.

Lemma run_quiet_witness :
  run "default" steady =
  mkPass steady [recA; recC]
    [EList "default"; ELogSummary 2 1 1] ReturnNil.
Proof.
  apply (@run_quiet Fake fakeDirectory "default" steady steady
           [recA; recC] eq_refl).
  - repeat constructor; eauto.
  - intros d. rewrite !elem_of_cons, elem_of_nil.
    intros [->|[->|[]]] Hf; [discriminate Hf|].
    eexists _, _. split; reflexivity.
Defined.

(** X14. A pass issues at most one update for a listed record, however
    it ends. *)
Theorem updates_once {W : Type} `{Directory W} (ns : string) (w : W) :
  NoDup (updatePtrs (trace (run ns w))).
Proof.
  destruct (run_cases ns w)
    as [(w1 & err & _ & ->)|[(w1 & items & _ & _ & ->)
                            |(w1 & items & _ & _ & ->)]];
    simpl; try constructor.
  destruct (dispatch_prefix (needsFrom 0 items) w1 items) as [k Hk].
  pose proof (needsFrom_NoDup items 0%nat) as Hnd.
  rewrite Hk in Hnd. by apply NoDup_app in Hnd as [? _].
Qed.

(** ** The loop of [main] *)


Lemma events_after {W} evs (r : Process W) :
  events (after evs r) = (evs ++ events r)%list.
Proof. reflexivity. Qed.

Lemma after_app {W} evs1 evs2 (r : Process W) :
  after (evs1 ++ evs2) r = after evs1 (after evs2 r).
Proof. unfold after. simpl. by rewrite app_assoc. Qed.

Section Loop.
Context {W : Type} `{Directory W}.




(** The world a pass leaves satisfies what the two calls preserve. *)
Lemma run_preserves (I : W → Prop) ns :
  (∀ w, I w → I (ListDeployments ns w).1) →
  (∀ w d, I w → I (UpdateDeployment d w).1) →
  ∀ w, I w → I (world (run ns w)).
Proof.
  intros Hlist Hupd w Hw.
  assert (∀ t w0, I w0 → I (replay t w0)) as Hreplay.
  { induction t as [|[] t IH]; simpl; eauto. }
  assert (world (run ns w) = replay (trace (run ns w)) (ListDeployments ns w).1)
    as ->.
  { destruct (run_cases ns w)
      as [(w1 & err & -> & ->)|[(w1 & items & -> & _ & ->)
                               |(w1 & items & -> & _ & ->)]];
      simpl; try done.
    apply dispatch_replay. }
  apply Hreplay, Hlist, Hw.
Qed.

Lemma run_safe ns w items :
  (ListDeployments ns w).2 = inl items →
  Forall readable items → Forall loggable items →
  outcome (run ns w) ≠ Panicked.
Proof.
  intros Hl Hr Hn.
  destruct (ListDeployments ns w) as [w1 r] eqn:Hlist. simpl in Hl. subst r.
  rewrite (run_listed _ _ _ _ Hlist).
  unfold plan. rewrite (planLoop_readable _ Hr). simpl.
  apply dispatch_no_panic; [apply needsFrom_NoDup|].
  intros p (d & sp & Hd & Hf & Hs & Hrb)%needsFrom_listed.
  exists d. split; [done|]. split; [eauto|].
  eapply Forall_lookup_1 in Hn; [|exact Hd].
  apply Hn; [done|]. by exists sp.
Qed.
End Loop.



(** X16. A pass that panics ends the process: if the loop has crashed
    within its first [n] iterations, one of the passes panicked, the
    events end with those of that pass, with no sleep and no log line
    after them, and further iterations add nothing. *)
Theorem mainLoop_crash {W : Type} `{Directory W}
    (n : nat) (ns : string) (w : W) :
  crashed (mainLoop n ns w) = true →
  Panicked ∈ passOutcomes n ns w ∧
  (∃ evs w',
     events (mainLoop n ns w) = (evs ++ (EPass <$> trace (run ns w')))%list ∧
     outcome (run ns w') = Panicked) ∧
  ∀ m, mainLoop (n + m) ns w = mainLoop n ns w.
Proof.
  revert w. induction n as [|n IH]; intros w; [done|].
  simpl. destruct (outcome (run ns w)) as [|msg|] eqn:Hout; simpl.
  - intros Hc. destruct (IH _ Hc) as (Hin & (evs & w' & Hev & Hp) & Hm).
    split; [by right|]. split.
    + exists ((EPass <$> trace (run ns w)) ++ [ESleep (2 * second)] ++ evs)%list, w'.
      rewrite Hev, <- !app_assoc. done.
    + intros m. by rewrite Hm.
  - intros Hc. destruct (IH _ Hc) as (Hin & (evs & w' & Hev & Hp) & Hm).
    split; [by right|]. split.
    + exists ((EPass <$> trace (run ns w)) ++
              [ELogRunError ("running rollbackController: " ++ msg);
               ESleep (2 * second)] ++ evs)%list, w'.
      rewrite Hev, <- !app_assoc. done.
    + intros m. by rewrite Hm.
  - intros _. split; [left|]. split; [|done].
    exists [], w. done.
Qed.

Lemma mainLoop_crash_witness :
  Panicked ∈ passOutcomes 3 "default" (mkFake [nameless] None []) ∧
  mainLoop (3 + 5) "default" (mkFake [nameless] None []) =
  mainLoop 3 "default" (mkFake [nameless] None []).
Proof.
  destruct (@mainLoop_crash Fake fakeDirectory 3 "default"
              (mkFake [nameless] None []) eq_refl) as (Hin & _ & Hm).
  split; [exact Hin|apply Hm].
Defined.

(** X17. Iterations compose: while the loop has not crashed, its first
    [n + m] iterations are its first [n] followed by the first [m]
    iterations started in the world the [n] left. *)
Theorem mainLoop_app {W : Type} `{Directory W}
    (n m : nat) (ns : string) (w : W) :
  crashed (mainLoop n ns w) = false →
  mainLoop (n + m) ns w =
  after (events (mainLoop n ns w)) (mainLoop m ns (client (mainLoop n ns w))).
Proof.
  revert w. induction n as [|n IH]; intros w.
  - intros _. simpl. by destruct (mainLoop m ns w).
  - simpl. destruct (outcome (run ns w)) as [|msg|] eqn:Hout; simpl; [| |done];
      intros Hc; rewrite (IH _ Hc); unfold after; simpl;
      by rewrite <- !app_assoc.
Qed.

Lemma mainLoop_app_witness :
  mainLoop (1 + 1) "default" scenario =
  after (events (mainLoop 1 "default" scenario))
    (mainLoop 1 "default" (client (mainLoop 1 "default" scenario))).
Proof.
  apply (@mainLoop_app Fake fakeDirectory 1 1 "default" scenario eq_refl).
Defined.

(** X18. If the worlds of the Directory keep a property under the list
    call and under every update, and in such a world every listing is of
    records with a status, a spec when failed and a name when they need a
    rollback, then the loop started in such a world never crashes. *)
Theorem mainLoop_never_crashes {W : Type} `{Directory W}
    (I : W → Prop) (ns : string) :
  (∀ w, I w → I (ListDeployments ns w).1) →
  (∀ w d, I w → I (UpdateDeployment d w).1) →
  (∀ w items, I w → (ListDeployments ns w).2 = inl items →
              Forall readable items ∧ Forall loggable items) →
  ∀ n w, I w → crashed (mainLoop n ns w) = false.
Proof.
  intros Hlist Hupd Hok. induction n as [|n IH]; intros w Hw; [done|].
  simpl. pose proof (run_preserves I ns Hlist Hupd w Hw) as Hw'.
  destruct (outcome (run ns w)) as [|msg|] eqn:Hout; simpl; eauto.
  exfalso.
  destruct (ListDeployments ns w) as [w1 [items|err]] eqn:Hl.
  - destruct (Hok w items Hw) as [Hr Hn]; [by rewrite Hl|].
    eapply (run_safe ns w items); [by rewrite Hl|done|done|done].
  - by rewrite (run_list_failed _ _ _ _ Hl) in Hout.
Qed.

Lemma mainLoop_never_crashes_witness :
  crashed (mainLoop 4 "default" [recA; recB; recC]) = false.
Proof.
  apply (@mainLoop_never_crashes (list Deployment) frozenDirectory
           (λ w, w = [recA; recB; recC]) "default"); [done|done| |done].
  intros w items -> [= <-]. split.
  - repeat constructor; eauto.
  - repeat constructor; intros _ _; eexists; reflexivity.
Defined.

(** ** [main] and [kubectlClient] *)

(** X19. [main] makes no call on the Directory unless the client type is
    exactly "in-cluster" and the in-cluster client was built, or exactly
    "kubectl" and the client was built from kubectl. *)
Theorem main_needs_client {W : Type} `{Directory W}
    (n : nat) (clientType : string)
    (inCluster kubectl : string * W + string) (e : MainEvent) :
  e ∈ main n clientType inCluster kubectl →
  isPassEvent e = true →
  (clientType = "in-cluster" ∧ ∃ c, inCluster = inl c) ∨
  (clientType = "kubectl" ∧ ∃ c, kubectl = inl c).
Proof.
  unfold main, selectClient.
  destruct (String.eqb clientType clientInCluster) eqn:E1.
  - apply String.eqb_eq in E1. destruct inCluster as [[ns c]|err].
    + intros _ _. left. eauto.
    + intros ->%list_elem_of_singleton. done.
  - destruct (String.eqb clientType clientKubectl) eqn:E2.
    + apply String.eqb_eq in E2. destruct kubectl as [[ns c]|err].
      * intros _ _. right. eauto.
      * intros ->%list_elem_of_singleton. done.
    + intros ->%list_elem_of_singleton. done.
Qed.

Lemma main_needs_client_witness :
  main 1 "Kubectl" (inl ("default", scenario)) (inl ("default", scenario)) =
    [EFatal "unrecognized client type: Kubectl"] ∧
  (("kubectl" = "in-cluster" ∧
    ∃ c : string * Fake, @inr (string * Fake) string "no token" = inl c) ∨
   ("kubectl" = "kubectl" ∧
    ∃ c : string * Fake, @inl (string * Fake) string ("default", unreachable) = inl c)).
Proof.
  split; [reflexivity|].
  apply (@main_needs_client Fake fakeDirectory 1 "kubectl"
           (inr "no token") (inl ("default", unreachable))
           (EPass (EList "default"))); [|reflexivity].
  left.
Defined.

(** X20. [kubectlClient] returns a client exactly when the command ran
    without error, its output parsed as a configuration, and a client
    could be built from it.  When the command failed, its output is not
    looked at, and the error reported is what it wrote on stderr, trimmed,
    if it wrote anything, the error of the command otherwise. *)
Theorem kubectlClient_results {W Config : Type}
    (TrimSpace : string → string) (Unmarshal : string → Config + string)
    (NewClient : Config → W + string) :
  (∀ c w,
     kubectlClient TrimSpace Unmarshal NewClient c = inl w ↔
     runErr c = None ∧
     ∃ config, Unmarshal (stdout c) = inl config ∧ NewClient config = inl w) ∧
  (∀ err out errout,
     kubectlClient TrimSpace Unmarshal NewClient
       (mkCmdRun (Some err) out errout) =
     inr ("kubectl config failed: " ++
          if decide (errout = "") then err else TrimSpace errout)).
Proof.
  split.
  - intros c w. unfold kubectlClient. destruct (runErr c) as [err|].
    + split; [done|]. by intros [? _].
    + destruct (Unmarshal (stdout c)) as [config|err].
      * split; [eauto|]. by intros (_ & config' & [= <-] & ?).
      * split; [done|]. by intros (_ & config' & ? & _).
  - intros err out errout. unfold kubectlClient.
    destruct (decide (errout = "")) as [->|Hne]; [done|].
    by destruct errout.
Qed.

(** X21. When the client type is neither of the two, or the client it
    names could not be built, [main] logs one fatal line and does nothing
    else, however many iterations it is given. *)
Theorem main_fatal {W : Type} `{Directory W}
    (n : nat) (clientType : string)
    (inCluster kubectl : string * W + string) :
  ¬ ((clientType = "in-cluster" ∧ ∃ c, inCluster = inl c) ∨
     (clientType = "kubectl" ∧ ∃ c, kubectl = inl c)) →
  ∃ msg,
    main n clientType inCluster kubectl = [EFatal msg] ∧
    ((∃ err, inCluster = inr err ∧ clientType = "in-cluster" ∧
             msg = "initialize in-cluster client: " ++ err) ∨
     (∃ err, kubectl = inr err ∧ clientType = "kubectl" ∧
             msg = "initialize client from kubectl: " ++ err) ∨
     (clientType ≠ "in-cluster" ∧ clientType ≠ "kubectl" ∧
      msg = "unrecognized client type: " ++ clientType)).
Proof.
  intros Hno. unfold main, selectClient.
  destruct (String.eqb clientType clientInCluster) eqn:E1.
  - apply String.eqb_eq in E1. destruct inCluster as [c|err].
    + exfalso. apply Hno. left. eauto.
    + eexists. split; [done|]. left. eauto.
  - apply String.eqb_neq in E1.
    destruct (String.eqb clientType clientKubectl) eqn:E2.
    + apply String.eqb_eq in E2. destruct kubectl as [c|err].
      * exfalso. apply Hno. right. eauto.
      * eexists. split; [done|]. right. left. eauto.
    + apply String.eqb_neq in E2.
      eexists. split; [done|]. right. right. done.
Qed.

Lemma main_fatal_witness :
  ∃ msg,
    main 5 "in-cluster" (inr "no service account")
      (inl ("default", scenario)) = [EFatal msg] ∧
    msg = "initialize in-cluster client: no service account".
Proof.
  destruct (@main_fatal Fake fakeDirectory 5 "in-cluster"
              (inr "no service account") (inl ("default", scenario)))
    as (msg & Hm & _).
  - intros [[_ [c Hc]]|[Hk _]]; discriminate.
  - exists msg. split; [exact Hm|].
    vm_compute in Hm. by injection Hm as <-.
Defined.
